(** * httpcore: the asynchronous connection pool

    A shallow embedding of [httpcore/_async/connection_pool.py] and of the
    type aliases of [httpcore/_types.py].

    Python objects are handles into a store of mutable attributes; the
    pool's dictionary of sets is a [gmap] of [gset]s; Python floats are
    binary64 numbers ([PrimFloat.float]); every call on a collaborator (the
    semaphore, a connection, a byte stream) is recorded in a trace, in
    program order.  One pool operation runs at a time, so the two locks
    ([_thread_lock], [_connection_acquiry_lock]) are always free when asked
    for and are not represented: the operations are state transformers on
    a [World], and what other tasks and the network do in between is an
    operation of its own ([OpEnv]). *)

From Stdlib Require Import Floats.
From stdpp Require Import gmap strings list fin_maps fin_sets functions.

(** ** [_types.py] *)

(** [Origin = Tuple[bytes, bytes, int]] *)
Definition Origin : Type := string * string * Z.

(** [URL = Tuple[bytes, bytes, Optional[int], bytes]] *)
Definition URL : Type := string * string * option Z * string.

(** [Headers = List[Tuple[bytes, bytes]]] *)
Definition Headers : Type := list (string * string).

(** [TimeoutDict = Mapping[str, Optional[float]]] *)
Definition TimeoutDict : Type := gmap string (option float).

(** ** Collaborators of the pool *)

(** Modelled from the spec: the enumeration [ConnectionState] of
    [_async/base.py], which is not part of the sources at hand. *)
Inductive ConnectionState := PENDING | ACTIVE | IDLE | READY | CLOSED.

Global Instance ConnectionState_eq_dec : EqDecision ConnectionState.
Proof. solve_decision. Defined.

(** The exceptions the pool tells apart.  [PoolTimeout],
    [NewConnectionRequired], [AssertionError] and [OtherException] are
    instances of Python's [Exception]; [NonException] stands for what
    derives from [BaseException] only (a cancellation, an interrupt) and
    so passes through an [except Exception] clause. *)
Inductive Exn :=
| PoolTimeout
| NewConnectionRequired
| AssertionError
| OtherException (name : string)
| NonException (name : string).

Global Instance Exn_eq_dec : EqDecision Exn.
Proof. solve_decision. Defined.

(** [isinstance(e, Exception)] *)
Definition is_Exception (e : Exn) : bool :=
  match e with
  | NonException _ => false
  | _ => true
  end.

(** What a call does: it returns, raises, or never returns. *)
Inductive Outcome (A : Type) :=
| Ret (a : A)
| Raise (e : Exn)
| Hang.
Arguments Ret {A} a.
Arguments Raise {A} e.
Arguments Hang {A}.

(** An [AsyncHTTPConnection] object: its identity and the origin it was
    built for, which never changes.  Sets of connections hash by identity. *)
Record AsyncHTTPConnection := {
  conn_id : positive;
  origin : Origin;
}.

Global Instance AsyncHTTPConnection_eq_dec : EqDecision AsyncHTTPConnection.
Proof. solve_decision. Defined.

Global Instance AsyncHTTPConnection_countable : Countable AsyncHTTPConnection.
Proof.
  refine (inj_countable' (λ c, (conn_id c, origin c))
            (λ p, {| conn_id := p.1; origin := p.2 |}) _).
  by intros [].
Defined.

(** The attributes of a connection that the pool reads and writes.
    [is_connection_dropped] is what the method of that name answers. *)
Record ConnAttrs := {
  state : ConnectionState;
  is_http11 : bool;
  is_http2 : bool;
  expires_at : option float;
  is_connection_dropped : bool;
}.

Definition set_expires_at (v : option float) (a : ConnAttrs) : ConnAttrs :=
  {| state := state a; is_http11 := is_http11 a; is_http2 := is_http2 a;
     expires_at := v; is_connection_dropped := is_connection_dropped a |}.

(** The attributes of all connection objects. *)
Abbreviation Store := (AsyncHTTPConnection → ConnAttrs).

(** The stream of a response as the connection hands it over: closing it
    is the connection's business ([_response_closed] of the HTTP/1.1
    connection or of the HTTP/2 stream); it may change connection
    attributes, and it returns, raises or hangs. *)
Record AsyncByteStream := {
  stream_id : positive;
  stream_aclose : Store → Outcome unit * Store;
}.

(** The 5-tuple that [connection.request] returns. *)
Record Response := {
  response_0 : string;
  response_1 : Z;
  response_2 : string;
  response_3 : Headers;
  response_4 : AsyncByteStream;
}.

(** One answer of [connection.request]: what it does to the connection's
    attributes, and how it ends. *)
Record RequestReply := {
  reply_attrs : ConnAttrs → ConnAttrs;
  reply_result : Exn + Response;
}.

(** The methods of a connection that the pool calls for their effect. *)
Class ConnectionMethods := {
  mark_as_ready_attrs : ConnAttrs → ConnAttrs;
  aclose_attrs : ConnAttrs → ConnAttrs;
}.

(** [url_to_origin] of [_utils.py]. *)
Class UrlUtils := {
  url_to_origin : URL → Origin;
}.

(** The order in which a [for] loop visits a Python set: some enumeration
    of its elements, each once. *)
Class SetIteration := {
  set_iter : gset AsyncHTTPConnection → list AsyncHTTPConnection;
  set_iter_perm : ∀ s, set_iter s ≡ₚ elements s;
}.

(** Modelled from the spec: the counting semaphore of the backend
    ([create_semaphore(max_value, exc_class)]), whose value is the number
    of free permits, and the [NullSemaphore] of this file. *)
Inductive AsyncSemaphore :=
| NullSemaphore
| Semaphore (value : nat).

Definition create_semaphore (max_value : nat) : AsyncSemaphore :=
  Semaphore max_value.

(** ** The trace of calls *)

Inductive Event :=
| EvAcquire (timeout : option float)
| EvRelease
| EvAdd (c : AsyncHTTPConnection)
| EvRemove (c : AsyncHTTPConnection)
| EvMarkAsReady (c : AsyncHTTPConnection)
| EvConnAclose (c : AsyncHTTPConnection)
| EvConnRequest (c : AsyncHTTPConnection)
| EvStreamAclose (s : positive)
| EvCallback (c : AsyncHTTPConnection).

(** ** The pool *)

Record AsyncConnectionPool := {
  _max_connections : option nat;
  _max_keepalive : option Z;
  _keepalive_expiry : option float;
  _http2 : bool;
  _connections : gmap Origin (gset AsyncHTTPConnection);
  _next_keepalive_check : float;
  _internal_semaphore : option AsyncSemaphore;
}.

(** [AsyncConnectionPool.__init__]; [ssl_context] and [local_addr] are only
    handed on to the connections the pool creates, and are left out.
    [max_connections] is the initial value of a semaphore, a count. *)
Definition __init__ (max_connections : option nat) (max_keepalive : option Z)
    (keepalive_expiry : option float) (http2 : bool) : AsyncConnectionPool :=
  {| _max_connections := max_connections;
     _max_keepalive := max_keepalive;
     _keepalive_expiry := keepalive_expiry;
     _http2 := http2;
     _connections := ∅;
     _next_keepalive_check := 0%float;
     _internal_semaphore := None |}.

(** The state of the program: the pool object, the attributes of the
    connection objects, the backend's monotonic clock, the identity the
    next new connection gets, and the trace so far. *)
Record World := {
  pool : AsyncConnectionPool;
  conn : Store;
  clock : float;
  next_conn_id : positive;
  trace : list Event;
}.

Definition set_pool (f : AsyncConnectionPool → AsyncConnectionPool) (w : World) : World :=
  {| pool := f (pool w); conn := conn w; clock := clock w;
     next_conn_id := next_conn_id w; trace := trace w |}.

Definition set_conn (f : Store → Store) (w : World) : World :=
  {| pool := pool w; conn := f (conn w); clock := clock w;
     next_conn_id := next_conn_id w; trace := trace w |}.

Definition log (e : Event) (w : World) : World :=
  {| pool := pool w; conn := conn w; clock := clock w;
     next_conn_id := next_conn_id w; trace := trace w ++ [e] |}.

Definition set_connections (m : gmap Origin (gset AsyncHTTPConnection))
    (p : AsyncConnectionPool) : AsyncConnectionPool :=
  {| _max_connections := _max_connections p;
     _max_keepalive := _max_keepalive p;
     _keepalive_expiry := _keepalive_expiry p;
     _http2 := _http2 p;
     _connections := m;
     _next_keepalive_check := _next_keepalive_check p;
     _internal_semaphore := _internal_semaphore p |}.

Definition set_next_keepalive_check (t : float)
    (p : AsyncConnectionPool) : AsyncConnectionPool :=
  {| _max_connections := _max_connections p;
     _max_keepalive := _max_keepalive p;
     _keepalive_expiry := _keepalive_expiry p;
     _http2 := _http2 p;
     _connections := _connections p;
     _next_keepalive_check := t;
     _internal_semaphore := _internal_semaphore p |}.

Definition set_internal_semaphore (s : AsyncSemaphore)
    (p : AsyncConnectionPool) : AsyncConnectionPool :=
  {| _max_connections := _max_connections p;
     _max_keepalive := _max_keepalive p;
     _keepalive_expiry := _keepalive_expiry p;
     _http2 := _http2 p;
     _connections := _connections p;
     _next_keepalive_check := _next_keepalive_check p;
     _internal_semaphore := Some s |}.

(** The wrapper that [request] returns in place of the response stream. *)
Record ResponseByteStream := {
  stream : AsyncByteStream;
  connection : AsyncHTTPConnection;
  callback : AsyncHTTPConnection → World → Outcome unit * World;
}.

(** *** The semaphore property and its two methods *)

(** [_connection_semaphore]: created on first use. *)
Definition _connection_semaphore (w : World) : AsyncSemaphore * World :=
  match _internal_semaphore (pool w) with
  | Some s => (s, w)
  | None =>
      let s := match _max_connections (pool w) with
               | Some n => create_semaphore n
               | None => NullSemaphore
               end in
      (s, set_pool (set_internal_semaphore s) w)
  end.

(** Modelled from the spec: [acquire(timeout)] of the counting semaphore
    takes a free permit; with none free and nobody else running it waits,
    until the timeout when there is one ([PoolTimeout], the [exc_class]
    the pool passes), for ever otherwise.  [NullSemaphore.acquire] returns. *)
Definition acquire (timeout : option float) (w : World) : Outcome unit * World :=
  let '(s, w) := _connection_semaphore w in
  let w := log (EvAcquire timeout) w in
  match s with
  | NullSemaphore => (Ret tt, w)
  | Semaphore (S n) => (Ret tt, set_pool (set_internal_semaphore (Semaphore n)) w)
  | Semaphore O =>
      match timeout with
      | Some _ => (Raise PoolTimeout, w)
      | None => (Hang, w)
      end
  end.

(** Modelled from the spec: [release()] hands a permit back.
    [NullSemaphore.release] does nothing. *)
Definition release (w : World) : World :=
  let '(s, w) := _connection_semaphore w in
  let w := log EvRelease w in
  match s with
  | NullSemaphore => w
  | Semaphore n => set_pool (set_internal_semaphore (Semaphore (S n))) w
  end.

(** *** Reading the dictionary *)

(** [self._connections.get(origin, set())] *)
Definition connections_get (m : gmap Origin (gset AsyncHTTPConnection))
    (o : Origin) : gset AsyncHTTPConnection :=
  default ∅ (m !! o).

(** [_connections_for_origin]: a copy of the origin's set. *)
Definition _connections_for_origin (p : AsyncConnectionPool) (o : Origin)
    : gset AsyncHTTPConnection :=
  connections_get (_connections p) o.

(** [_get_all_connections]: the union of the sets, in a new set. *)
Definition _get_all_connections (p : AsyncConnectionPool)
    : gset AsyncHTTPConnection :=
  map_fold (λ _ connection_set connections, connections ∪ connection_set)
    ∅ (_connections p).

(** *** [_add_to_pool] and [_remove_from_pool] *)

(** [d.setdefault(o, set())] *)
Definition setdefault_empty (o : Origin)
    (m : gmap Origin (gset AsyncHTTPConnection))
    : gmap Origin (gset AsyncHTTPConnection) :=
  match m !! o with
  | Some _ => m
  | None => <[o := ∅]> m
  end.

(** The two statements of [_add_to_pool] under [self._thread_lock]. *)
Definition dict_add (connection : AsyncHTTPConnection)
    (m : gmap Origin (gset AsyncHTTPConnection))
    : gmap Origin (gset AsyncHTTPConnection) :=
  alter (λ s, s ∪ {[connection]}) (origin connection)
    (setdefault_empty (origin connection) m).

Definition _add_to_pool (connection : AsyncHTTPConnection)
    (timeout : option TimeoutDict) (w : World) : Outcome unit * World :=
  let timeout := default ∅ timeout in
  match acquire (mjoin (timeout !! "pool"%string)) w with
  | (Ret _, w) =>
      (Ret tt, log (EvAdd connection)
                 (set_pool (λ p, set_connections (dict_add connection (_connections p)) p) w))
  | (r, w) => (r, w)
  end.

(** The removal from the origin's set and the deletion of the emptied
    set, in [_remove_from_pool]. *)
Definition dict_remove (connection : AsyncHTTPConnection)
    (m : gmap Origin (gset AsyncHTTPConnection))
    : gmap Origin (gset AsyncHTTPConnection) :=
  let m := alter (λ s, s ∖ {[connection]}) (origin connection) m in
  if decide (connections_get m (origin connection) = ∅)
  then delete (origin connection) m else m.

Definition _remove_from_pool (connection : AsyncHTTPConnection)
    (w : World) : World :=
  if decide (connection ∈ connections_get (_connections (pool w)) (origin connection))
  then
    let w := release w in
    log (EvRemove connection)
      (set_pool (λ p, set_connections (dict_remove connection (_connections p)) p) w)
  else w.

(** ** The operations that call connection methods *)

Section Operations.
Context `{!ConnectionMethods} `{!UrlUtils} `{!SetIteration}.

(** [connection.mark_as_ready()] *)
Definition mark_as_ready (c : AsyncHTTPConnection) (w : World) : World :=
  log (EvMarkAsReady c) (set_conn (λ st, <[c := mark_as_ready_attrs (st c)]> st) w).

(** [connection.aclose()] *)
Definition conn_aclose (c : AsyncHTTPConnection) (w : World) : World :=
  log (EvConnAclose c) (set_conn (λ st, <[c := aclose_attrs (st c)]> st) w).

(** [connection.expires_at = v] *)
Definition assign_expires_at (c : AsyncHTTPConnection) (v : option float)
    (w : World) : World :=
  set_conn (λ st, <[c := set_expires_at v (st c)]> st) w.

(** [for connection in connections: await connection.aclose()] *)
Definition close_all (cs : list AsyncHTTPConnection) (w : World) : World :=
  foldl (λ w c, conn_aclose c w) w cs.

(** *** [_get_connection_from_pool] *)

(** The local variables of the scan. *)
Record Scan := {
  seen_http11 : bool;
  pending_connection : option AsyncHTTPConnection;
  reuse_connection : option AsyncHTTPConnection;
  connections_to_close : gset AsyncHTTPConnection;
}.

Definition scan_init : Scan :=
  {| seen_http11 := false; pending_connection := None;
     reuse_connection := None; connections_to_close := ∅ |}.

(** The body of the [for] loop. *)
Definition scan_step (sw : Scan * World) (connection : AsyncHTTPConnection)
    : Scan * World :=
  let '(s, w) := sw in
  let a := conn w connection in
  let seen := if is_http11 a then true else seen_http11 s in
  match state a with
  | IDLE =>
      if is_connection_dropped a then
        ({| seen_http11 := seen;
            pending_connection := pending_connection s;
            reuse_connection := reuse_connection s;
            connections_to_close := connections_to_close s ∪ {[connection]} |},
         _remove_from_pool connection w)
      else
        ({| seen_http11 := seen;
            pending_connection := pending_connection s;
            reuse_connection := Some connection;
            connections_to_close := connections_to_close s |}, w)
  | ACTIVE =>
      if is_http2 a then
        ({| seen_http11 := seen;
            pending_connection := pending_connection s;
            reuse_connection := Some connection;
            connections_to_close := connections_to_close s |}, w)
      else
        ({| seen_http11 := seen;
            pending_connection := pending_connection s;
            reuse_connection := reuse_connection s;
            connections_to_close := connections_to_close s |}, w)
  | PENDING =>
      ({| seen_http11 := seen;
          pending_connection := Some connection;
          reuse_connection := reuse_connection s;
          connections_to_close := connections_to_close s |}, w)
  | _ =>
      ({| seen_http11 := seen;
          pending_connection := pending_connection s;
          reuse_connection := reuse_connection s;
          connections_to_close := connections_to_close s |}, w)
  end.

Definition _get_connection_from_pool (o : Origin) (w : World)
    : option AsyncHTTPConnection * World :=
  let '(s, w) :=
    foldl scan_step (scan_init, w) (set_iter (_connections_for_origin (pool w) o)) in
  let '(reuse, w) :=
    match reuse_connection s with
    | Some c => (Some c, assign_expires_at c None (mark_as_ready c w))
    | None =>
        if _http2 (pool w) && bool_decide (is_Some (pending_connection s))
           && negb (seen_http11 s)
        then (pending_connection s, w)
        else (None, w)
    end in
  (reuse, close_all (set_iter (connections_to_close s)) w).

(** *** [_response_closed] *)

Definition _response_closed (connection : AsyncHTTPConnection) (w : World)
    : World :=
  let '(remove_from_pool, close_connection, w) :=
    match state (conn w connection) with
    | CLOSED => (true, false, w)
    | IDLE =>
        let num_connections := size (_get_all_connections (pool w)) in
        if match _max_keepalive (pool w) with
           | Some k => bool_decide (k < Z.of_nat num_connections)%Z
           | None => false
           end
        then (true, true, w)
        else
          match _keepalive_expiry (pool w) with
          | Some e =>
              let now := clock w in
              (false, false, assign_expires_at connection (Some (now + e)%float) w)
          | None => (false, false, w)
          end
    | _ => (false, false, w)
    end in
  let w := if remove_from_pool : bool then _remove_from_pool connection w else w in
  if close_connection : bool then conn_aclose connection w else w.

(** *** [_keepalive_sweep] *)

(** [state == IDLE and expires_at is not None and now > expires_at] *)
Definition expired (now : float) (a : ConnAttrs) : bool :=
  match state a, expires_at a with
  | IDLE, Some e => PrimFloat.ltb e now
  | _, _ => false
  end.

Definition sweep_step (now : float)
    (sw : gset AsyncHTTPConnection * World) (connection : AsyncHTTPConnection)
    : gset AsyncHTTPConnection * World :=
  let '(connections_to_close, w) := sw in
  if expired now (conn w connection)
  then (connections_to_close ∪ {[connection]}, _remove_from_pool connection w)
  else (connections_to_close, w).

Definition _keepalive_sweep (w : World) : Outcome unit * World :=
  match _keepalive_expiry (pool w) with
  | None => (Raise AssertionError, w)
  | Some _ =>
      let now := clock w in
      if PrimFloat.ltb now (_next_keepalive_check (pool w)) then (Ret tt, w)
      else
        let w := set_pool (set_next_keepalive_check (now + 1)%float) w in
        let '(connections_to_close, w) :=
          foldl (sweep_step now) (∅, w) (set_iter (_get_all_connections (pool w))) in
        (Ret tt, close_all (set_iter connections_to_close) w)
  end.

(** *** [aclose] *)

Definition aclose (w : World) : World :=
  let connections := set_iter (_get_all_connections (pool w)) in
  let w := foldl (λ w c, _remove_from_pool c w) w connections in
  close_all connections w.

(** *** [ResponseByteStream.aclose] *)

(** [try: await self.stream.aclose() finally: await self.callback(self.connection)]:
    the callback runs when the inner close returns or raises; what the
    inner close raised is raised again when the callback returns, and is
    replaced by what the callback raises. *)
Definition ResponseByteStream_aclose (self : ResponseByteStream) (w : World)
    : Outcome unit * World :=
  let w := log (EvStreamAclose (stream_id (stream self))) w in
  let '(r, st) := stream_aclose (stream self) (conn w) in
  let w := set_conn (λ _, st) w in
  match r with
  | Hang => (Hang, w)
  | _ =>
      match callback self (connection self) (log (EvCallback (connection self)) w) with
      | (Ret _, w) => (r, w)
      | (r', w) => (r', w)
      end
  end.

(** *** [request] *)

(** Modelled from the spec: the constructor of [AsyncHTTPConnection]
    ([_async/connection.py]) gives a new object, in state [PENDING], no
    protocol negotiated yet. *)
Definition new_connection_attrs : ConnAttrs :=
  {| state := PENDING; is_http11 := false; is_http2 := false;
     expires_at := None; is_connection_dropped := false |}.

Definition new_connection (o : Origin) (w : World) : AsyncHTTPConnection * World :=
  let c := {| conn_id := next_conn_id w; origin := o |} in
  (c, {| pool := pool w; conn := <[c := new_connection_attrs]> (conn w);
         clock := clock w; next_conn_id := Pos.succ (next_conn_id w);
         trace := trace w |}).

(** The block under [self._connection_acquiry_lock]: get or create. *)
Definition get_or_create (o : Origin) (timeout : option TimeoutDict) (w : World)
    : Outcome AsyncHTTPConnection * World :=
  match _get_connection_from_pool o w with
  | (Some c, w) => (Ret c, w)
  | (None, w) =>
      let '(c, w) := new_connection o w in
      match _add_to_pool c timeout w with
      | (Ret _, w) => (Ret c, w)
      | (Raise e, w) => (Raise e, w)
      | (Hang, w) => (Hang, w)
      end
  end.

(** [await connection.request(...)], answered by [reply]. *)
Definition conn_request (c : AsyncHTTPConnection) (reply : RequestReply)
    (w : World) : World :=
  set_conn (λ st, <[c := reply_attrs reply (st c)]> st) (log (EvConnRequest c) w).

(** The [while connection is None] loop.  [script] holds the answers of
    the successive calls of [connection.request]; a call past the end of
    the script never returns. *)
Fixpoint request_loop (o : Origin) (timeout : option TimeoutDict)
    (script : list RequestReply) (w : World)
    : Outcome (Response * AsyncHTTPConnection) * World :=
  match get_or_create o timeout w with
  | (Ret c, w) =>
      match script with
      | [] => (Hang, log (EvConnRequest c) w)
      | reply :: script =>
          let w := conn_request c reply w in
          match reply_result reply with
          | inr response => (Ret (response, c), w)
          | inl NewConnectionRequired => request_loop o timeout script w
          | inl e =>
              if is_Exception e then (Raise e, _remove_from_pool c w)
              else (Raise e, w)
          end
      end
  | (Raise e, w) => (Raise e, w)
  | (Hang, w) => (Hang, w)
  end.

(** [ResponseByteStream(response[4], connection=connection,
    callback=self._response_closed)] *)
Definition wrap_stream (s : AsyncByteStream) (c : AsyncHTTPConnection)
    : ResponseByteStream :=
  {| stream := s; connection := c;
     callback := λ c w, (Ret tt, _response_closed c w) |}.

(** [request(method, url, headers, stream, timeout)]; [method], [headers]
    and [stream] are only handed on to [connection.request]. *)
Definition request (url : URL) (timeout : option TimeoutDict)
    (script : list RequestReply) (w : World)
    : Outcome (string * Z * string * Headers * ResponseByteStream) * World :=
  if bool_decide (url.1.1.1 = "http"%string ∨ url.1.1.1 = "https"%string) then
    let o := url_to_origin url in
    let '(r, w) :=
      match _keepalive_expiry (pool w) with
      | Some _ => _keepalive_sweep w
      | None => (Ret tt, w)
      end in
    match r with
    | Ret _ =>
        match request_loop o timeout script w with
        | (Ret (response, c), w) =>
            let wrapped_stream := wrap_stream (response_4 response) c in
            (Ret (response_0 response, response_1 response, response_2 response,
                  response_3 response, wrapped_stream), w)
        | (Raise e, w) => (Raise e, w)
        | (Hang, w) => (Hang, w)
        end
    | Raise e => (Raise e, w)
    | Hang => (Hang, w)
    end
  else (Raise AssertionError, w).

End Operations.

(** *** [get_connection_info] *)

(** [origin_to_url_string] of [_utils.py], and [connection.info()], the
    summary a connection gives of itself. *)
Class InfoMethods := {
  origin_to_url_string : Origin → string;
  info : AsyncHTTPConnection → ConnAttrs → string;
}.

(** The order in which [dict.items()] lists the connections map: some
    enumeration of its entries, each once. *)
Class DictIteration := {
  dict_items :
    gmap Origin (gset AsyncHTTPConnection) →
    list (Origin * gset AsyncHTTPConnection);
  dict_items_perm : ∀ m, dict_items m ≡ₚ map_to_list m;
}.

Section Introspection.
Context `{!InfoMethods} `{!DictIteration} `{!SetIteration}.

(** The body of the [for] loop: [stats[origin_to_url_string(origin)] =
    [connection.info() for connection in connections]]. *)
Definition info_step (w : World) (stats : gmap string (list string))
    (item : Origin * gset AsyncHTTPConnection) : gmap string (list string) :=
  <[origin_to_url_string item.1 :=
      (λ connection, info connection (conn w connection)) <$> set_iter item.2]>
    stats.

Definition get_connection_info (w : World) : gmap string (list string) :=
  foldl (info_step w) ∅ (dict_items (_connections (pool w))).

End Introspection.

(** ** Notions used to state the properties *)

(** Every connection is filed under its own origin. *)
Definition filed (m : gmap Origin (gset AsyncHTTPConnection)) : Prop :=
  ∀ o s c, m !! o = Some s → c ∈ s → origin c = o.

(** No origin key maps to an empty set. *)
Definition no_empty_set (m : gmap Origin (gset AsyncHTTPConnection)) : Prop :=
  ∀ o s, m !! o = Some s → s ≠ ∅.

(** The sizes of the sets of all origins, added up. *)
Definition total_connections (m : gmap Origin (gset AsyncHTTPConnection)) : nat :=
  map_fold (λ _ s n, size s + n) 0 m.

(** The semaphore that [_connection_semaphore] answers with. *)
Definition semaphore_of (p : AsyncConnectionPool) : AsyncSemaphore :=
  match _internal_semaphore p with
  | Some s => s
  | None =>
      match _max_connections p with
      | Some n => create_semaphore n
      | None => NullSemaphore
      end
  end.

(** The free permits and the connections held add up to at most
    [max_connections]. *)
Definition permits_ok (p : AsyncConnectionPool) : Prop :=
  match _max_connections p with
  | None => True
  | Some n =>
      match semaphore_of p with
      | NullSemaphore => False
      | Semaphore v => size (_get_all_connections p) + v ≤ n
      end
  end.

(** The settings of the pool, fixed by [__init__]. *)
Definition config (p : AsyncConnectionPool)
    : option nat * option Z * option float * bool :=
  (_max_connections p, _max_keepalive p, _keepalive_expiry p, _http2 p).

Definition pool_inv (p : AsyncConnectionPool) : Prop :=
  filed (_connections p) ∧ no_empty_set (_connections p) ∧ permits_ok p.

(** The connection is in the set of its origin: the test of
    [_remove_from_pool]. *)
Definition present (c : AsyncHTTPConnection) (w : World) : Prop :=
  c ∈ connections_get (_connections (pool w)) (origin c).

Global Instance present_dec c w : Decision (present c w).
Proof. unfold present. apply _. Defined.

(** A connection that [_get_connection_from_pool] may hand out for reuse. *)
Definition reuse_candidate (a : ConnAttrs) : Prop :=
  (state a = IDLE ∧ is_connection_dropped a = false) ∨
  (state a = ACTIVE ∧ is_http2 a = true).

Global Instance reuse_candidate_dec a : Decision (reuse_candidate a).
Proof. unfold reuse_candidate. apply _. Defined.

(** An idle connection that the peer has dropped. *)
Definition dropped_idle (a : ConnAttrs) : Prop :=
  state a = IDLE ∧ is_connection_dropped a = true.

Global Instance dropped_idle_dec a : Decision (dropped_idle a).
Proof. unfold dropped_idle. apply _. Defined.

Definition is_callback_of (c : AsyncHTTPConnection) (e : Event) : bool :=
  match e with
  | EvCallback c' => bool_decide (c' = c)
  | _ => false
  end.

(** The pool of [w'] has the dictionary, the settings, the semaphore and
    the time of the next sweep of the pool of [w]. *)
Definition same_core (w w' : World) : Prop :=
  _connections (pool w') = _connections (pool w) ∧
  config (pool w') = config (pool w) ∧
  _internal_semaphore (pool w') = _internal_semaphore (pool w) ∧
  _next_keepalive_check (pool w') = _next_keepalive_check (pool w).

(** [w'] comes from [w] by additions and removals, and by changes outside
    the dictionary, the settings and the semaphore. *)
Inductive evolves : World → World → Prop :=
| evolves_core w w' : same_core w w' → evolves w w'
| evolves_add c timeout w : evolves w (_add_to_pool c timeout w).2
| evolves_remove c w : evolves w (_remove_from_pool c w)
| evolves_trans w1 w2 w3 : evolves w1 w2 → evolves w2 w3 → evolves w1 w3.

(** [for connection in cs: await self._remove_from_pool(connection)] *)
Definition remove_all (cs : list AsyncHTTPConnection) (w : World) : World :=
  foldl (λ w c, _remove_from_pool c w) w cs.

(** What the removal of the connections of [cs] present in [w] logs. *)
Definition removal_events (w : World) (cs : list AsyncHTTPConnection) : list Event :=
  cs ≫= λ c, if decide (present c w) then [EvRelease; EvRemove c] else [].

(** What holds of the local variables after the loop has visited [l]. *)
Definition scanned (w : World) (l : list AsyncHTTPConnection)
    (sw : Scan * World) : Prop :=
  sw.2 = remove_all (filter (λ c, dropped_idle (conn w c)) l) w ∧
  connections_to_close sw.1 = list_to_set (filter (λ c, dropped_idle (conn w c)) l) ∧
  (seen_http11 sw.1 = true ↔ ∃ c, c ∈ l ∧ is_http11 (conn w c) = true) ∧
  (∀ c, reuse_connection sw.1 = Some c → c ∈ l ∧ reuse_candidate (conn w c)) ∧
  (reuse_connection sw.1 = None → ∀ c, c ∈ l → ¬ reuse_candidate (conn w c)) ∧
  (∀ c, pending_connection sw.1 = Some c → c ∈ l ∧ state (conn w c) = PENDING) ∧
  (pending_connection sw.1 = None → ∀ c, c ∈ l → state (conn w c) ≠ PENDING).

Section Reachability.
Context `{!ConnectionMethods} `{!UrlUtils} `{!SetIteration}.

(** A world with a newly built pool. *)
Definition initial (w : World) : Prop :=
  ∃ max_connections max_keepalive keepalive_expiry http2,
    pool w = __init__ max_connections max_keepalive keepalive_expiry http2.

(** The operations of the pool, and the moves of its surroundings:
    connections change their attributes, time passes, objects get
    allocated. *)
Inductive Op :=
| OpRequest (url : URL) (timeout : option TimeoutDict) (script : list RequestReply)
| OpAddToPool (c : AsyncHTTPConnection) (timeout : option TimeoutDict)
| OpRemoveFromPool (c : AsyncHTTPConnection)
| OpResponseClosed (c : AsyncHTTPConnection)
| OpStreamAclose (s : AsyncByteStream) (c : AsyncHTTPConnection)
| OpKeepaliveSweep
| OpAclose
| OpEnv (f : Store → Store) (t : float) (n : positive).

Definition run (op : Op) (w : World) : World :=
  match op with
  | OpRequest url timeout script => (request url timeout script w).2
  | OpAddToPool c timeout => (_add_to_pool c timeout w).2
  | OpRemoveFromPool c => _remove_from_pool c w
  | OpResponseClosed c => _response_closed c w
  | OpStreamAclose s c => (ResponseByteStream_aclose (wrap_stream s c) w).2
  | OpKeepaliveSweep => (_keepalive_sweep w).2
  | OpAclose => aclose w
  | OpEnv f t n =>
      {| pool := pool w; conn := f (conn w); clock := t; next_conn_id := n;
         trace := trace w |}
  end.

Definition run_ops (ops : list Op) (w : World) : World :=
  foldl (λ w op, run op w) w ops.

Inductive reachable : World → Prop :=
| reachable_initial w : initial w → reachable w
| reachable_step op w : reachable w → reachable (run op w).

(** The sweep is due: [now < self._next_keepalive_check] is false. *)
Definition sweep_due (w : World) : bool :=
  negb (PrimFloat.ltb (clock w) (_next_keepalive_check (pool w))).

(** The operation, started in [w], runs the scan of [_keepalive_sweep]. *)
Definition runs_scan (op : Op) (w : World) : bool :=
  match op with
  | OpRequest url _ _ =>
      bool_decide (url.1.1.1 = "http"%string ∨ url.1.1.1 = "https"%string)
      && bool_decide (is_Some (_keepalive_expiry (pool w))) && sweep_due w
  | OpKeepaliveSweep =>
      bool_decide (is_Some (_keepalive_expiry (pool w))) && sweep_due w
  | _ => false
  end.

(** No operation of [ops], run in turn from [w], runs the scan. *)
Fixpoint no_scan (ops : list Op) (w : World) : Prop :=
  match ops with
  | [] => True
  | op :: ops => runs_scan op w = false ∧ no_scan ops (run op w)
  end.

End Reachability.

(** ** Concrete collaborators and worlds, to run the model on *)

(** Python's sets enumerated in the order of [elements]. *)
Definition elements_iteration : SetIteration :=
  {| set_iter := elements; set_iter_perm := λ s, reflexivity (elements s) |}.

(** Modelled from the spec: [mark_as_ready()] takes an [IDLE] connection to
    [READY], and [aclose()] leaves the connection [CLOSED]; both methods
    belong to [_async/connection.py], which is not at hand. *)
Definition set_state (s : ConnectionState) (a : ConnAttrs) : ConnAttrs :=
  {| state := s; is_http11 := is_http11 a; is_http2 := is_http2 a;
     expires_at := expires_at a; is_connection_dropped := is_connection_dropped a |}.

Definition spec_connection_methods : ConnectionMethods :=
  {| mark_as_ready_attrs := λ a,
       match state a with IDLE => set_state READY a | _ => a end;
     aclose_attrs := set_state CLOSED |}.

(** Modelled from the spec: the origin of a URL is its scheme, host and
    port, the port of the scheme standing in for an absent one. *)
Definition default_url_utils : UrlUtils :=
  {| url_to_origin := λ url,
       (url.1.1.1, url.1.1.2,
        default (if bool_decide (url.1.1.1 = "https"%string) then 443%Z else 80%Z)
          url.1.2) |}.

Definition example_origin : Origin := ("http"%string, "example.org"%string, 80%Z).

Definition conn1 : AsyncHTTPConnection := {| conn_id := 1; origin := example_origin |}.
Definition conn2 : AsyncHTTPConnection := {| conn_id := 2; origin := example_origin |}.
Definition conn3 : AsyncHTTPConnection := {| conn_id := 3; origin := example_origin |}.

Definition idle_attrs (e : option float) : ConnAttrs :=
  {| state := IDLE; is_http11 := true; is_http2 := false;
     expires_at := e; is_connection_dropped := false |}.

(** A new pool with at most two connections, keep-alive of one second,
    HTTP/2 enabled; no request made yet. *)
Definition world0 : World :=
  {| pool := __init__ (Some 2) (Some 10%Z) (Some 1%float) true;
     conn := λ _, new_connection_attrs;
     clock := 0%float;
     next_conn_id := 1;
     trace := [] |}.

(** Two connections enter the pool. *)
Definition ops_two : list Op :=
  [OpAddToPool conn1 None; OpAddToPool conn2 None].

(** A third one is refused after the pool timeout. *)
Definition ops_three : list Op :=
  ops_two ++ [OpAddToPool conn3 (Some {[ "pool"%string := Some 1%float ]})].

(** Both connections idle at time 5: the first expired at 3, the second
    expires at 7. *)
Definition ops_idle : list Op :=
  ops_two ++
  [OpEnv (λ st, <[conn1 := idle_attrs (Some 3%float)]>
                  (<[conn2 := idle_attrs (Some 7%float)]> st)) 5%float 3].

(** One connection, whose response is closed at time 4 with a keep-alive
    of one second; then the clock reads 5. *)
Definition ops_expiring_now : list Op :=
  [OpAddToPool conn1 None;
   OpEnv (λ st, <[conn1 := idle_attrs None]> st) 4%float 2;
   OpResponseClosed conn1;
   OpEnv (λ st, st) 5%float 2].

(** After a scan at time 5: a removal, and half a second passes. *)
Definition ops_after_scan : list Op :=
  [OpRemoveFromPool conn2; OpEnv (λ st, st) 5.5%float 3].

(** An idle and a pending connection for the same origin. *)
Definition ops_idle_pending : list Op :=
  ops_two ++ [OpEnv (λ st, <[conn1 := idle_attrs None]> st) 1%float 3].

Definition reply_refused : RequestReply :=
  {| reply_attrs := set_state CLOSED;
     reply_result := inl (OtherException "ConnectError") |}.

Definition failing_stream : AsyncByteStream :=
  {| stream_id := 1;
     stream_aclose := λ st, (Raise (OtherException "ReadError"), st) |}.

(** ** Further notions *)

(** A pool without a bound has the semaphore that never refuses. *)
Definition unlimited_ok (p : AsyncConnectionPool) : Prop :=
  _max_connections p = None → semaphore_of p = NullSemaphore.

(** [max_keepalive] is set and smaller than the number of connections:
    the test of [_response_closed]. *)
Definition over_keepalive (w : World) : Prop :=
  ∃ k, _max_keepalive (pool w) = Some k ∧
       (k < Z.of_nat (size (_get_all_connections (pool w))))%Z.

Global Instance over_keepalive_dec w : Decision (over_keepalive w).
Proof.
  unfold over_keepalive. destruct (_max_keepalive (pool w)) as [k|].
  - destruct (decide (k < Z.of_nat (size (_get_all_connections (pool w))))%Z).
    + left. by exists k.
    + right. intros (k' & [= <-] & ?). done.
  - right. by intros (k' & ? & _).
Defined.

Definition is_acquire (e : Event) : bool :=
  match e with EvAcquire _ => true | _ => false end.

(** [_response_closed] takes the connection out of the pool, and closes it. *)
Definition leaves_pool (c : AsyncHTTPConnection) (w : World) : Prop :=
  state (conn w c) = CLOSED ∨ (state (conn w c) = IDLE ∧ over_keepalive w).

Global Instance leaves_pool_dec c w : Decision (leaves_pool c w).
Proof. unfold leaves_pool. apply _. Defined.

Definition gets_closed (c : AsyncHTTPConnection) (w : World) : Prop :=
  state (conn w c) = IDLE ∧ over_keepalive w.

Global Instance gets_closed_dec c w : Decision (gets_closed c w).
Proof. unfold gets_closed. apply _. Defined.

(** ** More concrete collaborators and worlds *)

(** Modelled from the spec: the URL of an origin, here its scheme and
    host; and a summary that names the state of the connection. *)
Definition default_info_methods : InfoMethods :=
  {| origin_to_url_string := λ o,
       (o.1.1 +:+ "://" +:+ o.1.2)%string;
     info := λ _ a,
       match state a with
       | PENDING => "PENDING" | ACTIVE => "ACTIVE" | IDLE => "IDLE"
       | READY => "READY" | CLOSED => "CLOSED"
       end%string |}.

(** The entries of a dictionary in the order of [map_to_list]. *)
Definition map_to_list_iteration : DictIteration :=
  {| dict_items := map_to_list;
     dict_items_perm := λ m, reflexivity (map_to_list m) |}.

(** A pool without a bound on its connections. *)
Definition world_unlimited : World :=
  {| pool := __init__ None None None false;
     conn := λ _, new_connection_attrs;
     clock := 0%float;
     next_conn_id := 1;
     trace := [] |}.

(** One connection in the pool, idle, at time 4. *)
Definition ops_one_idle : list Op :=
  [OpAddToPool conn1 None;
   OpEnv (λ st, <[conn1 := idle_attrs None]> st) 4%float 2].

(** Two connections, the first idle and dropped by the peer. *)
Definition ops_dropped : list Op :=
  ops_two ++
  [OpEnv (λ st, <[conn1 :=
                    {| state := IDLE; is_http11 := true; is_http2 := false;
                       expires_at := None; is_connection_dropped := true |}]> st)
     1%float 3].



(** One connection in the pool. *)
Definition ops_one : list Op := [OpAddToPool conn1 None].

Definition pool_timeout_1 : option TimeoutDict :=
  Some {[ "pool"%string := Some 1%float ]}.

(** A response stream whose close leaves the first connection CLOSED. *)
Definition closing_stream : AsyncByteStream :=
  {| stream_id := 3;
     stream_aclose := λ st, (Ret tt, <[conn1 := set_state CLOSED (st conn1)]> st) |}.


(** ** The dictionary of sets *)

Section Dictionary.
Implicit Types (m : gmap Origin (gset AsyncHTTPConnection)).
Implicit Types (c x : AsyncHTTPConnection) (o : Origin).

Lemma connections_get_Some m o s :
  m !! o = Some s → connections_get m o = s.
Proof. unfold connections_get. by intros ->. Qed.

Lemma connections_get_None m o :
  m !! o = None → connections_get m o = ∅.
Proof. unfold connections_get. by intros ->. Qed.

Lemma lookup_dict_add m c o :
  dict_add c m !! o =
    if decide (o = origin c) then Some (connections_get m o ∪ {[c]}) else m !! o.
Proof.
  unfold dict_add, setdefault_empty, connections_get.
  destruct (decide (o = origin c)) as [->|Hne].
  - rewrite lookup_alter_eq. destruct (m !! origin c) as [s|] eqn:E.
    + by rewrite E.
    + by rewrite lookup_insert_eq.
  - rewrite lookup_alter_ne by done.
    destruct (m !! origin c); [done|]. by rewrite lookup_insert_ne.
Qed.

Lemma lookup_dict_remove m c o :
  dict_remove c m !! o =
    if decide (o = origin c)
    then match m !! o with
         | Some s => if decide (s ∖ {[c]} = ∅) then None else Some (s ∖ {[c]})
         | None => None
         end
    else m !! o.
Proof.
  unfold dict_remove, connections_get.
  rewrite lookup_alter_eq.
  destruct (decide (o = origin c)) as [->|Hne].
  - destruct (m !! origin c) as [s|] eqn:E; simpl.
    + destruct (decide (s ∖ {[c]} = ∅)).
      * by rewrite lookup_delete_eq.
      * by rewrite lookup_alter_eq, E.
    + rewrite decide_True by done. by rewrite lookup_delete_eq.
  - destruct (decide _).
    + rewrite lookup_delete_ne by done. by rewrite lookup_alter_ne.
    + by rewrite lookup_alter_ne.
Qed.

Lemma get_dict_add m c o :
  connections_get (dict_add c m) o =
    if decide (o = origin c) then connections_get m o ∪ {[c]}
    else connections_get m o.
Proof.
  unfold connections_get at 1. rewrite lookup_dict_add.
  by destruct (decide _).
Qed.

Lemma get_dict_remove m c o :
  connections_get (dict_remove c m) o =
    if decide (o = origin c) then connections_get m o ∖ {[c]}
    else connections_get m o.
Proof.
  unfold connections_get at 1. rewrite lookup_dict_remove.
  destruct (decide _) as [->|]; [|done].
  unfold connections_get. destruct (m !! origin c) as [s|]; simpl.
  - by destruct (decide _) as [->|].
  - set_solver.
Qed.

Lemma elem_of_get_all (p : AsyncConnectionPool) c :
  c ∈ _get_all_connections p ↔ ∃ o s, _connections p !! o = Some s ∧ c ∈ s.
Proof.
  unfold _get_all_connections.
  apply (map_fold_weak_ind
    (λ (r : gset AsyncHTTPConnection) m, c ∈ r ↔ ∃ o s, m !! o = Some s ∧ c ∈ s)).
  - split; [set_solver|]. intros (o & s & Hl & _). by rewrite lookup_empty in Hl.
  - intros o s m r Hnone IH. rewrite elem_of_union, IH. split.
    + intros [(o' & s' & Hl & Hin)|Hin].
      * exists o', s'. split; [|done].
        rewrite lookup_insert_ne; [done|]. intros ->. congruence.
      * exists o, s. by rewrite lookup_insert_eq.
    + intros (o' & s' & Hl & Hin).
      destruct (decide (o = o')) as [->|Hne].
      * rewrite lookup_insert_eq in Hl. right. congruence.
      * rewrite lookup_insert_ne in Hl by done. left. eauto.
Qed.

Lemma elem_of_get_all_filed (p : AsyncConnectionPool) c :
  filed (_connections p) →
  c ∈ _get_all_connections p ↔ c ∈ connections_get (_connections p) (origin c).
Proof.
  intros Hf. rewrite elem_of_get_all. unfold connections_get. split.
  - intros (o & s & Hl & Hin). rewrite (Hf _ _ _ Hl Hin). by rewrite Hl.
  - destruct (_connections p !! origin c) as [s|] eqn:E; simpl; [|set_solver].
    eauto.
Qed.

Lemma filed_dict_add m c : filed m → filed (dict_add c m).
Proof.
  intros Hf o s x. rewrite lookup_dict_add.
  destruct (decide _) as [->|]; [|apply Hf].
  intros [= Hs]; subst s. rewrite elem_of_union, elem_of_singleton.
  intros [Hin| ->]; [|done].
  unfold connections_get in Hin.
  destruct (m !! origin c) eqn:E; simpl in Hin; [eauto|set_solver].
Qed.

Lemma filed_dict_remove m c : filed m → filed (dict_remove c m).
Proof.
  intros Hf o s x. rewrite lookup_dict_remove.
  destruct (decide _) as [->|]; [|apply Hf].
  destruct (m !! origin c) as [s'|] eqn:E; [|done].
  destruct (decide _); [done|]. intros [= Hs] Hin; subst s. apply (Hf _ _ _ E). set_solver.
Qed.

Lemma no_empty_set_dict_add m c : no_empty_set m → no_empty_set (dict_add c m).
Proof.
  intros Hn o s. rewrite lookup_dict_add.
  destruct (decide _) as [->|]; [|apply Hn].
  intros [= <-]. set_solver.
Qed.

Lemma no_empty_set_dict_remove m c :
  no_empty_set m → no_empty_set (dict_remove c m).
Proof.
  intros Hn o s. rewrite lookup_dict_remove.
  destruct (decide _) as [->|]; [|apply Hn].
  destruct (m !! origin c) as [s'|] eqn:E; [|done].
  destruct (decide _); [done|]. by intros [= <-].
Qed.

End Dictionary.

(** ** What the semaphore and the two dictionary operations change *)

Section Primitives.
Implicit Types (w : World) (c : AsyncHTTPConnection).

Lemma release_pool w :
  _connections (pool (release w)) = _connections (pool w) ∧
  config (pool (release w)) = config (pool w) ∧
  _next_keepalive_check (pool (release w)) = _next_keepalive_check (pool w) ∧
  semaphore_of (pool (release w)) =
    match semaphore_of (pool w) with
    | NullSemaphore => NullSemaphore
    | Semaphore v => Semaphore (S v)
    end.
Proof.
  destruct w as [[mc mk ke h2 m nk [s|]] st clk nid tr]; unfold release, semaphore_of; simpl.
  - by destruct s.
  - by destruct mc.
Qed.

Lemma release_rest w :
  conn (release w) = conn w ∧ clock (release w) = clock w ∧
  next_conn_id (release w) = next_conn_id w ∧
  trace (release w) = trace w ++ [EvRelease].
Proof.
  destruct w as [[mc mk ke h2 m nk [s|]] st clk nid tr]; unfold release; simpl.
  - by destruct s.
  - by destruct mc.
Qed.

Lemma acquire_pool t w :
  _connections (pool (acquire t w).2) = _connections (pool w) ∧
  config (pool (acquire t w).2) = config (pool w) ∧
  _next_keepalive_check (pool (acquire t w).2) = _next_keepalive_check (pool w) ∧
  semaphore_of (pool (acquire t w).2) =
    match (acquire t w).1, semaphore_of (pool w) with
    | Ret _, Semaphore (S v) => Semaphore v
    | _, s => s
    end.
Proof.
  destruct w as [[mc mk ke h2 m nk [s|]] st clk nid tr]; unfold acquire, semaphore_of; simpl.
  - destruct s as [|[|v]]; simpl; [done| |done]. by destruct t.
  - destruct mc as [[|v]|]; simpl; [|done|done]. by destruct t.
Qed.

Lemma acquire_rest t w :
  conn (acquire t w).2 = conn w ∧ clock (acquire t w).2 = clock w ∧
  next_conn_id (acquire t w).2 = next_conn_id w ∧
  trace (acquire t w).2 = trace w ++ [EvAcquire t].
Proof.
  destruct w as [[mc mk ke h2 m nk [s|]] st clk nid tr]; unfold acquire; simpl.
  - destruct s as [|[|v]]; simpl; [done| |done]. by destruct t.
  - destruct mc as [[|v]|]; simpl; [|done|done]. by destruct t.
Qed.

(** [acquire] returns exactly when a permit is free (or there is no bound),
    and raises nothing but [PoolTimeout]. *)
Lemma acquire_result t w :
  (acquire t w).1 =
    match semaphore_of (pool w), t with
    | Semaphore O, Some _ => Raise PoolTimeout
    | Semaphore O, None => Hang
    | _, _ => Ret tt
    end.
Proof.
  destruct w as [[mc mk ke h2 m nk [s|]] st clk nid tr]; unfold acquire, semaphore_of; simpl.
  - destruct s as [|[|v]]; simpl; [done| |done]. by destruct t.
  - destruct mc as [[|v]|]; simpl; [|done|done]. by destruct t.
Qed.

Lemma remove_absent c w : ¬ present c w → _remove_from_pool c w = w.
Proof. intros Hn. unfold _remove_from_pool. by rewrite decide_False. Qed.

Lemma remove_present c w :
  present c w →
  _remove_from_pool c w =
    log (EvRemove c)
      (set_pool (λ p, set_connections (dict_remove c (_connections p)) p) (release w)).
Proof. intros Hp. unfold _remove_from_pool. by rewrite decide_True. Qed.

Lemma remove_connections c w :
  _connections (pool (_remove_from_pool c w)) =
    if decide (present c w) then dict_remove c (_connections (pool w))
    else _connections (pool w).
Proof.
  destruct (decide (present c w)) as [Hp|Hn].
  - rewrite remove_present by done. simpl.
    by destruct (release_pool w) as (-> & _).
  - by rewrite remove_absent.
Qed.

Lemma remove_pool c w :
  config (pool (_remove_from_pool c w)) = config (pool w) ∧
  _next_keepalive_check (pool (_remove_from_pool c w)) = _next_keepalive_check (pool w) ∧
  semaphore_of (pool (_remove_from_pool c w)) =
    if decide (present c w) then
      match semaphore_of (pool w) with
      | NullSemaphore => NullSemaphore
      | Semaphore v => Semaphore (S v)
      end
    else semaphore_of (pool w).
Proof.
  destruct (decide (present c w)) as [Hp|Hn].
  - rewrite remove_present by done.
    destruct (release_pool w) as (_ & Hc & Hk & Hs).
    split_and!; [by rewrite <- Hc|by rewrite <- Hk|by rewrite <- Hs].
  - by rewrite remove_absent.
Qed.

Lemma remove_rest c w :
  conn (_remove_from_pool c w) = conn w ∧
  clock (_remove_from_pool c w) = clock w ∧
  next_conn_id (_remove_from_pool c w) = next_conn_id w ∧
  trace (_remove_from_pool c w) =
    trace w ++ (if decide (present c w) then [EvRelease; EvRemove c] else []).
Proof.
  destruct (decide (present c w)) as [Hp|Hn].
  - rewrite remove_present by done. simpl.
    destruct (release_rest w) as (-> & -> & -> & ->).
    by rewrite <- app_assoc.
  - rewrite remove_absent by done. by rewrite app_nil_r.
Qed.

Lemma remove_not_present c w : ¬ present c (_remove_from_pool c w).
Proof.
  unfold present at 1. rewrite remove_connections.
  destruct (decide (present c w)) as [Hp|Hn]; [|done].
  rewrite get_dict_remove, decide_True by done. set_solver.
Qed.

Lemma present_remove_ne c x w :
  x ≠ c → present x (_remove_from_pool c w) ↔ present x w.
Proof.
  intros Hne. unfold present at 1. rewrite remove_connections.
  destruct (decide (present c w)) as [Hp|Hn]; [|done].
  rewrite get_dict_remove. unfold present.
  destruct (decide _) as [->|]; [|done]. set_solver.
Qed.

End Primitives.

(** ** The invariant of the pool *)

Section Invariant.
Implicit Types (w : World) (c : AsyncHTTPConnection) (p : AsyncConnectionPool).

Lemma get_all_ext p p' :
  _connections p' = _connections p →
  _get_all_connections p' = _get_all_connections p.
Proof. unfold _get_all_connections. by intros ->. Qed.

Lemma get_all_dict_add p c :
  filed (_connections p) →
  _get_all_connections (set_connections (dict_add c (_connections p)) p) =
    _get_all_connections p ∪ {[c]}.
Proof.
  intros Hf. apply set_eq. intros x.
  rewrite elem_of_union, !elem_of_get_all_filed; simpl;
    [|done|by apply filed_dict_add].
  rewrite get_dict_add. destruct (decide _) as [Heq|Hne]; [set_solver|].
  rewrite elem_of_singleton. split; [by left|]. intros [?| ->]; done.
Qed.

Lemma get_all_dict_remove p c :
  filed (_connections p) →
  _get_all_connections (set_connections (dict_remove c (_connections p)) p) =
    _get_all_connections p ∖ {[c]}.
Proof.
  intros Hf. apply set_eq. intros x.
  rewrite elem_of_difference, !elem_of_get_all_filed; simpl;
    [|done|by apply filed_dict_remove].
  rewrite get_dict_remove, elem_of_singleton.
  destruct (decide _) as [Heq|Hne]; [set_solver|].
  split; [|tauto]. intros Hin. split; [done|]. by intros ->.
Qed.

Lemma get_all_empty p : _connections p = ∅ → _get_all_connections p = ∅.
Proof. unfold _get_all_connections. intros ->. apply map_fold_empty. Qed.

Lemma pool_inv_init mc mk ke h2 : pool_inv (__init__ mc mk ke h2).
Proof.
  split_and!.
  - intros o s c Hl. simpl in Hl. by rewrite lookup_empty in Hl.
  - intros o s Hl. simpl in Hl. by rewrite lookup_empty in Hl.
  - unfold permits_ok, semaphore_of; simpl. destruct mc; [|done]. simpl.
    rewrite get_all_empty by done. rewrite size_empty. lia.
Qed.

Lemma pool_inv_same_core w w' :
  same_core w w' → pool_inv (pool w) → pool_inv (pool w').
Proof.
  intros (Hm & Hc & Hs & _) (Hf & Hn & Hp). unfold pool_inv. rewrite Hm.
  split_and!; [done..|].
  unfold permits_ok, semaphore_of in *. unfold config in Hc.
  rewrite (get_all_ext _ _ Hm), Hs.
  by replace (_max_connections (pool w')) with (_max_connections (pool w))
    by congruence.
Qed.

Lemma pool_inv_remove c w :
  pool_inv (pool w) → pool_inv (pool (_remove_from_pool c w)).
Proof.
  intros (Hf & Hn & Hp).
  destruct (decide (present c w)) as [Hpr|Hnp]; [|by rewrite remove_absent].
  destruct (remove_pool c w) as (Hc & _ & Hs). rewrite decide_True in Hs by done.
  pose proof (remove_connections c w) as Hm. rewrite decide_True in Hm by done.
  unfold pool_inv. rewrite Hm.
  split_and!; [by apply filed_dict_remove|by apply no_empty_set_dict_remove|].
  unfold permits_ok in *. unfold config in Hc.
  replace (_max_connections (pool (_remove_from_pool c w)))
    with (_max_connections (pool w)) by congruence.
  destruct (_max_connections (pool w)) as [n|]; [|done].
  rewrite Hs. destruct (semaphore_of (pool w)) as [|v]; [done|].
  assert (_get_all_connections (pool (_remove_from_pool c w)) =
          _get_all_connections (pool w) ∖ {[c]}) as ->.
  { rewrite <- (get_all_dict_remove _ _ Hf). apply get_all_ext. by rewrite Hm. }
  assert (c ∈ _get_all_connections (pool w)) as Hin
    by by apply elem_of_get_all_filed.
  rewrite size_difference by set_solver. rewrite size_singleton.
  assert (size (_get_all_connections (pool w)) ≠ 0).
  { apply size_non_empty_iff. set_solver. }
  lia.
Qed.

Lemma add_connections c timeout w :
  _connections (pool (_add_to_pool c timeout w).2) =
    match (_add_to_pool c timeout w).1 with
    | Ret _ => dict_add c (_connections (pool w))
    | _ => _connections (pool w)
    end.
Proof.
  unfold _add_to_pool.
  set (t := mjoin _).
  destruct (acquire_pool t w) as (Hm & _).
  destruct (acquire t w) as [[[]|e|] w1]; simpl in *; by rewrite Hm.
Qed.

Lemma add_result c timeout w :
  (_add_to_pool c timeout w).1 =
    (acquire (mjoin (default ∅ timeout !! "pool"%string)) w).1.
Proof.
  unfold _add_to_pool.
  by destruct (acquire _ w) as [[[]|e|] w1].
Qed.

Lemma add_pool c timeout w :
  config (pool (_add_to_pool c timeout w).2) = config (pool w) ∧
  _next_keepalive_check (pool (_add_to_pool c timeout w).2) =
    _next_keepalive_check (pool w) ∧
  semaphore_of (pool (_add_to_pool c timeout w).2) =
    match (_add_to_pool c timeout w).1, semaphore_of (pool w) with
    | Ret _, Semaphore (S v) => Semaphore v
    | _, s => s
    end.
Proof.
  unfold _add_to_pool.
  set (t := mjoin _).
  destruct (acquire_pool t w) as (_ & Hc & Hk & Hs).
  destruct (acquire t w) as [[[]|e|] w1]; simpl in *; by rewrite <- ?Hc, <- ?Hk, <- ?Hs.
Qed.

Lemma add_rest c timeout w :
  conn (_add_to_pool c timeout w).2 = conn w ∧
  clock (_add_to_pool c timeout w).2 = clock w ∧
  next_conn_id (_add_to_pool c timeout w).2 = next_conn_id w.
Proof.
  unfold _add_to_pool.
  set (t := mjoin _).
  destruct (acquire_rest t w) as (Hs & Hc & Hn & _).
  by destruct (acquire t w) as [[[]|e|] w1].
Qed.

Lemma pool_inv_add c timeout w :
  pool_inv (pool w) → pool_inv (pool (_add_to_pool c timeout w).2).
Proof.
  intros (Hf & Hn & Hp).
  pose proof (add_connections c timeout w) as Hm.
  destruct (add_pool c timeout w) as (Hc & _ & Hs).
  pose proof (add_result c timeout w) as Hr. rewrite acquire_result in Hr.
  unfold pool_inv, permits_ok in *. unfold config in Hc.
  replace (_max_connections (pool (_add_to_pool c timeout w).2))
    with (_max_connections (pool w)) by congruence.
  rewrite Hs.
  destruct ((_add_to_pool c timeout w).1) as [[]|e|]; rewrite Hm.
  - split_and!; [by apply filed_dict_add|by apply no_empty_set_dict_add|].
    destruct (_max_connections (pool w)) as [n|]; [|done].
    assert (_get_all_connections (pool (_add_to_pool c timeout w).2) =
            _get_all_connections (pool w) ∪ {[c]}) as ->.
    { rewrite <- (get_all_dict_add _ _ Hf). apply get_all_ext. by rewrite Hm. }
    destruct (semaphore_of (pool w)) as [|[|v]]; [done| |].
    + by destruct (mjoin _).
    + pose proof (size_union_alt (_get_all_connections (pool w)) {[c]}) as Hsz.
      assert (size (({[c]} : gset _) ∖ _get_all_connections (pool w)) ≤ 1).
      { rewrite <- (size_singleton (C:=gset AsyncHTTPConnection) c).
        apply subseteq_size. set_solver. }
      lia.
  - split_and!; [done..|].
    destruct (_max_connections (pool w)) as [n|]; [|done].
    by rewrite (get_all_ext _ _ Hm).
  - split_and!; [done..|].
    destruct (_max_connections (pool w)) as [n|]; [|done].
    by rewrite (get_all_ext _ _ Hm).
Qed.

End Invariant.

(** ** Loops of removals and of closes *)

Section Loops.
Context `{!ConnectionMethods}.
Implicit Types (w : World) (c x : AsyncHTTPConnection).
Implicit Types (l cs : list AsyncHTTPConnection).

Lemma same_core_refl w : same_core w w.
Proof. by split_and!. Qed.

Lemma same_core_trans w1 w2 w3 :
  same_core w1 w2 → same_core w2 w3 → same_core w1 w3.
Proof. intros (?&?&?&?) (?&?&?&?). split_and!; congruence. Qed.

Lemma evolves_next_keepalive_check w w' :
  evolves w w' →
  _next_keepalive_check (pool w') = _next_keepalive_check (pool w).
Proof.
  induction 1 as [w w' (_&_&_&Hc)|c t w|c w|w1 w2 w3 _ IH1 _ IH2].
  - done.
  - by destruct (add_pool c t w) as (_ & -> & _).
  - by destruct (remove_pool c w) as (_ & -> & _).
  - congruence.
Qed.

Lemma evolves_refl w : evolves w w.
Proof. apply evolves_core, same_core_refl. Qed.

Lemma evolves_inv w w' :
  evolves w w' → pool_inv (pool w) → pool_inv (pool w').
Proof.
  induction 1 as [w w' Hc|c t w|c w|w1 w2 w3 _ IH1 _ IH2]; intros Hinv.
  - by apply (pool_inv_same_core w).
  - by apply pool_inv_add.
  - by apply pool_inv_remove.
  - auto.
Qed.

Lemma evolves_config w w' :
  evolves w w' → config (pool w') = config (pool w).
Proof.
  induction 1 as [w w' (_&Hc&_)|c t w|c w|w1 w2 w3 _ IH1 _ IH2].
  - done.
  - by destruct (add_pool c t w) as (-> & _).
  - by destruct (remove_pool c w) as (-> & _).
  - congruence.
Qed.

Lemma remove_all_cons c l w :
  remove_all (c :: l) w = remove_all l (_remove_from_pool c w).
Proof. done. Qed.

Lemma remove_all_app l1 l2 w :
  remove_all (l1 ++ l2) w = remove_all l2 (remove_all l1 w).
Proof. apply foldl_app. Qed.

Lemma remove_all_evolves l w : evolves w (remove_all l w).
Proof.
  revert w. induction l as [|c l IH]; intros w; [apply evolves_refl|].
  rewrite remove_all_cons.
  eapply evolves_trans; [apply evolves_remove|apply IH].
Qed.

Lemma remove_all_rest l w :
  conn (remove_all l w) = conn w ∧ clock (remove_all l w) = clock w ∧
  next_conn_id (remove_all l w) = next_conn_id w ∧
  _next_keepalive_check (pool (remove_all l w)) = _next_keepalive_check (pool w).
Proof.
  revert w. induction l as [|c l IH]; intros w; [done|].
  rewrite remove_all_cons.
  destruct (IH (_remove_from_pool c w)) as (-> & -> & -> & ->).
  destruct (remove_rest c w) as (-> & -> & -> & _).
  by destruct (remove_pool c w) as (_ & -> & _).
Qed.

Lemma remove_all_present l w x :
  present x (remove_all l w) ↔ present x w ∧ x ∉ l.
Proof.
  revert w. induction l as [|c l IH]; intros w.
  - simpl. rewrite elem_of_nil. tauto.
  - rewrite remove_all_cons, IH, not_elem_of_cons.
    destruct (decide (x = c)) as [->|Hne].
    + pose proof (remove_not_present c w). tauto.
    + rewrite present_remove_ne by done. tauto.
Qed.

Lemma removal_events_cons w c l :
  removal_events w (c :: l) =
    (if decide (present c w) then [EvRelease; EvRemove c] else [])
    ++ removal_events w l.
Proof. done. Qed.

Lemma removal_events_ext w w' l :
  (∀ x, x ∈ l → present x w' ↔ present x w) →
  removal_events w' l = removal_events w l.
Proof.
  induction l as [|c l IH]; intros Hx; [done|].
  rewrite !removal_events_cons, IH.
  - destruct (decide (present c w')) as [H1|H1], (decide (present c w)) as [H2|H2];
      try done; exfalso; apply (Hx c) in H1 || apply (Hx c) in H2; set_solver.
  - intros x Hin. apply Hx. set_solver.
Qed.

Lemma removal_events_present w l :
  (∀ x, x ∈ l → present x w) →
  removal_events w l = l ≫= λ c, [EvRelease; EvRemove c].
Proof.
  induction l as [|c l IH]; intros Hx; [done|].
  rewrite removal_events_cons, IH by (intros x Hin; apply Hx; set_solver).
  rewrite decide_True by (apply Hx; set_solver). done.
Qed.

Lemma remove_all_trace l w :
  NoDup l → trace (remove_all l w) = trace w ++ removal_events w l.
Proof.
  revert w. induction l as [|c l IH]; intros w Hnd.
  - simpl. by rewrite app_nil_r.
  - apply list.NoDup_cons in Hnd as [Hc Hnd].
    rewrite remove_all_cons, IH, removal_events_cons by done.
    destruct (remove_rest c w) as (_ & _ & _ & ->).
    rewrite <- app_assoc. f_equal. f_equal.
    apply removal_events_ext. intros x Hin.
    apply present_remove_ne. by intros ->.
Qed.

Lemma close_all_cons c l w :
  close_all (c :: l) w = close_all l (conn_aclose c w).
Proof. done. Qed.

Lemma close_all_pool l w :
  pool (close_all l w) = pool w ∧ clock (close_all l w) = clock w ∧
  next_conn_id (close_all l w) = next_conn_id w ∧
  trace (close_all l w) = trace w ++ (EvConnAclose <$> l).
Proof.
  revert w. induction l as [|c l IH]; intros w.
  - simpl. by rewrite app_nil_r.
  - rewrite close_all_cons.
    destruct (IH (conn_aclose c w)) as (-> & -> & -> & ->). simpl.
    by rewrite <- app_assoc.
Qed.

Lemma close_all_conn l w x :
  x ∉ l → conn (close_all l w) x = conn w x.
Proof.
  revert w. induction l as [|c l IH]; intros w Hx; [done|].
  apply not_elem_of_cons in Hx as [Hne Hx].
  rewrite close_all_cons, IH by done. simpl.
  by rewrite fn_lookup_insert_ne.
Qed.

Lemma close_all_same_core l w : same_core w (close_all l w).
Proof. destruct (close_all_pool l w) as (Hp & _). unfold same_core. by rewrite Hp. Qed.

End Loops.

(** ** Iterating over a set *)

Section Iteration.
Context `{!SetIteration}.

Lemma elem_of_set_iter s x : x ∈ set_iter s ↔ x ∈ s.
Proof. by rewrite (set_iter_perm s), elem_of_elements. Qed.

Lemma NoDup_set_iter s : NoDup (set_iter s).
Proof. rewrite (set_iter_perm s). apply NoDup_elements. Qed.

End Iteration.

(** ** The scan of [_get_connection_from_pool] *)

Section Scan.
Context `{!ConnectionMethods}.
Implicit Types (w : World) (c x : AsyncHTTPConnection).
Implicit Types (l : list AsyncHTTPConnection).

Lemma scanned_nil w : scanned w [] (scan_init, w).
Proof.
  unfold scanned; simpl. split_and!; try done.
  - split; [done|]. intros (c & Hc & _). by apply elem_of_nil in Hc.
  - intros _ c Hc. by apply elem_of_nil in Hc.
  - intros _ c Hc. by apply elem_of_nil in Hc.
Qed.

Lemma scanned_snoc w l sw c :
  scanned w l sw → scanned w (l ++ [c]) (scan_step sw c).
Proof.
  destruct sw as [s w']. intros (Hw & Hcl & Hseen & Hr1 & Hr2 & Hp1 & Hp2).
  simpl in *.
  assert (conn w' = conn w) as Hst.
  { rewrite Hw. by destruct (remove_all_rest (filter (λ c, dropped_idle (conn w c)) l) w). }
  unfold scan_step. rewrite Hst.
  assert (Hseen' : ∀ b, (if is_http11 (conn w c) then true else seen_http11 s) = b →
     (b = true ↔ ∃ x, x ∈ l ++ [c] ∧ is_http11 (conn w x) = true)).
  { intros b <-. destruct (is_http11 (conn w c)) eqn:E.
    - split; [|done]. intros _. exists c. split; [set_solver|done].
    - rewrite Hseen. split.
      + intros (x & Hx & E'). exists x. split; [set_solver|done].
      + intros (x & Hx & E'). apply elem_of_app in Hx as [Hx|Hx]; [eauto|].
        apply list_elem_of_singleton in Hx as ->. congruence. }
  assert (Hkeep_r : ¬ reuse_candidate (conn w c) →
     (∀ x, reuse_connection s = Some x → x ∈ l ++ [c] ∧ reuse_candidate (conn w x)) ∧
     (reuse_connection s = None → ∀ x, x ∈ l ++ [c] → ¬ reuse_candidate (conn w x))).
  { intros Hnc. split.
    - intros x Hx. destruct (Hr1 x Hx). split; [set_solver|done].
    - intros Hn x Hx. apply elem_of_app in Hx as [Hx|Hx]; [by apply Hr2|].
      by apply list_elem_of_singleton in Hx as ->. }
  assert (Hnew_r : reuse_candidate (conn w c) →
     (∀ x, Some c = Some x → x ∈ l ++ [c] ∧ reuse_candidate (conn w x)) ∧
     (Some c = None → ∀ x, x ∈ l ++ [c] → ¬ reuse_candidate (conn w x))).
  { intros Hc. split; [|done]. intros x [= <-]. split; [set_solver|done]. }
  assert (Hkeep_p : state (conn w c) ≠ PENDING →
     (∀ x, pending_connection s = Some x → x ∈ l ++ [c] ∧ state (conn w x) = PENDING) ∧
     (pending_connection s = None → ∀ x, x ∈ l ++ [c] → state (conn w x) ≠ PENDING)).
  { intros Hnc. split.
    - intros x Hx. destruct (Hp1 x Hx). split; [set_solver|done].
    - intros Hn x Hx. apply elem_of_app in Hx as [Hx|Hx]; [by apply Hp2|].
      by apply list_elem_of_singleton in Hx as ->. }
  assert (Hkeep_d : ¬ dropped_idle (conn w c) →
     filter (λ c, dropped_idle (conn w c)) (l ++ [c]) =
     filter (λ c, dropped_idle (conn w c)) l).
  { intros Hd. rewrite list.filter_app, filter_cons_False by done.
    by rewrite filter_nil, app_nil_r. }
  unfold scanned, reuse_candidate, dropped_idle in *.
  destruct (state (conn w c)) eqn:Est; simpl.
  - (* PENDING *)
    destruct Hkeep_r as [? ?]; [naive_solver|].
    rewrite Hkeep_d by naive_solver.
    split_and!;
      first [done | by apply Hseen' | intros ? [= <-]; split; [set_solver|done]].
  - (* ACTIVE *)
    rewrite Hkeep_d by naive_solver.
    destruct Hkeep_p as [? ?]; [done|].
    destruct (is_http2 (conn w c)) eqn:E2; simpl.
    + destruct Hnew_r as [? ?]; [naive_solver|].
      split_and!; first [done | by apply Hseen'].
    + destruct Hkeep_r as [? ?]; [naive_solver|].
      split_and!; first [done | by apply Hseen'].
  - (* IDLE *)
    destruct Hkeep_p as [? ?]; [done|].
    destruct (is_connection_dropped (conn w c)) eqn:Ed; simpl.
    + destruct Hkeep_r as [? ?]; [naive_solver|].
      rewrite list.filter_app, filter_cons_True by done.
      rewrite filter_nil, remove_all_app, list_to_set_app_L, <- Hw, Hcl. simpl.
      split_and!; first [done | by apply Hseen' | by rewrite union_empty_r_L].
    + rewrite Hkeep_d by naive_solver.
      destruct Hnew_r as [? ?]; [naive_solver|].
      split_and!; first [done | by apply Hseen'].
  - (* READY *)
    rewrite Hkeep_d by naive_solver.
    destruct Hkeep_p as [? ?]; [done|].
    destruct Hkeep_r as [? ?]; [naive_solver|].
    split_and!; first [done | by apply Hseen'].
  - (* CLOSED *)
    rewrite Hkeep_d by naive_solver.
    destruct Hkeep_p as [? ?]; [done|].
    destruct Hkeep_r as [? ?]; [naive_solver|].
    split_and!; first [done | by apply Hseen'].
Qed.

Lemma scanned_foldl w l : scanned w l (foldl scan_step (scan_init, w) l).
Proof.
  induction l as [|c l IH] using rev_ind; [apply scanned_nil|].
  rewrite foldl_app. simpl. by apply scanned_snoc.
Qed.

End Scan.

(** ** Selection *)

Section Selection.
Context `{!ConnectionMethods} `{!SetIteration}.
Implicit Types (w : World) (c x : AsyncHTTPConnection) (o : Origin).

Lemma reuse_candidate_not_dropped a : reuse_candidate a → ¬ dropped_idle a.
Proof. unfold reuse_candidate, dropped_idle. intros [[? ?]|[? ?]] [? ?]; congruence. Qed.

(** C1. [_get_connection_from_pool] (the spec's select_or_nil): whenever the
    set of the origin holds a reuse candidate (an IDLE connection that is
    not dropped, or an ACTIVE HTTP/2 connection), the call returns such a
    candidate, after calling [mark_as_ready()] on it and setting its
    [expires_at] to [None].  When the set holds no reuse candidate, the call
    returns a PENDING connection of the set if and only if HTTP/2 is
    enabled, the set holds a PENDING connection and no connection of the set
    has [is_http11]; otherwise it returns [None]. *)
Theorem get_connection_from_pool_selects o w :
  ((∃ c, c ∈ _connections_for_origin (pool w) o ∧ reuse_candidate (conn w c)) →
   ∃ c, (_get_connection_from_pool o w).1 = Some c ∧
        c ∈ _connections_for_origin (pool w) o ∧
        reuse_candidate (conn w c) ∧
        (∃ t1 t2, trace (_get_connection_from_pool o w).2 =
                    trace w ++ t1 ++ EvMarkAsReady c :: t2) ∧
        conn (_get_connection_from_pool o w).2 c =
          set_expires_at None (mark_as_ready_attrs (conn w c)) ∧
        expires_at (conn (_get_connection_from_pool o w).2 c) = None) ∧
  ((¬ ∃ c, c ∈ _connections_for_origin (pool w) o ∧ reuse_candidate (conn w c)) →
   ((∃ c, (_get_connection_from_pool o w).1 = Some c ∧
          c ∈ _connections_for_origin (pool w) o ∧
          state (conn w c) = PENDING) ↔
    (_http2 (pool w) = true ∧
     (∃ c, c ∈ _connections_for_origin (pool w) o ∧ state (conn w c) = PENDING) ∧
     (∀ c, c ∈ _connections_for_origin (pool w) o → is_http11 (conn w c) = false))) ∧
   (¬ (_http2 (pool w) = true ∧
       (∃ c, c ∈ _connections_for_origin (pool w) o ∧ state (conn w c) = PENDING) ∧
       (∀ c, c ∈ _connections_for_origin (pool w) o → is_http11 (conn w c) = false)) →
    (_get_connection_from_pool o w).1 = None)).
Proof.
  unfold _get_connection_from_pool.
  pose proof (scanned_foldl w (set_iter (_connections_for_origin (pool w) o)))
    as (Hw & Hcl & Hseen & Hr1 & Hr2 & Hp1 & Hp2).
  set (S := _connections_for_origin (pool w) o) in *.
  set (dropped := filter (λ c, dropped_idle (conn w c)) (set_iter S)) in *.
  destruct (foldl scan_step (scan_init, w) (set_iter S)) as [s w1].
  simpl in *.
  assert (conn w1 = conn w) as Hst.
  { rewrite Hw. by destruct (remove_all_rest dropped w). }
  assert (_http2 (pool w1) = _http2 (pool w)) as Hh2.
  { rewrite Hw. pose proof (evolves_config _ _ (remove_all_evolves dropped w)) as E.
    unfold config in E. congruence. }
  assert (∃ t, trace w1 = trace w ++ t) as [t1 Ht1].
  { rewrite Hw. eexists. apply remove_all_trace.
    apply list.NoDup_filter, NoDup_set_iter. }
  destruct (reuse_connection s) as [c|] eqn:Er.
  - destruct (Hr1 c eq_refl) as [Hin Hc]. apply elem_of_set_iter in Hin.
    split.
    + intros _. exists c. simpl.
      assert (conn (close_all (set_iter (connections_to_close s))
                      (assign_expires_at c None (mark_as_ready c w1))) c =
              set_expires_at None (mark_as_ready_attrs (conn w c))) as Hattrs.
      { rewrite close_all_conn.
        - simpl. rewrite !fn_lookup_insert. by rewrite Hst.
        - rewrite elem_of_set_iter, Hcl, elem_of_list_to_set.
          unfold dropped. rewrite list_elem_of_filter.
          intros [Hd _]. by apply (reuse_candidate_not_dropped _ Hc). }
      split_and!; try done.
      * destruct (close_all_pool (set_iter (connections_to_close s))
                    (assign_expires_at c None (mark_as_ready c w1)))
          as (_ & _ & _ & ->).
        simpl. rewrite Ht1. exists t1. eexists.
        by rewrite <- !app_assoc.
      * by rewrite Hattrs.
    + intros Hno. exfalso. apply Hno. eauto.
  - specialize (Hr2 eq_refl). split.
    + intros (c & Hin & Hc). exfalso. apply (Hr2 c); [|done].
      by apply elem_of_set_iter.
    + intros _. rewrite Hh2.
      assert (seen_http11 s = false ↔ ∀ c, c ∈ S → is_http11 (conn w c) = false)
        as Hseen0.
      { destruct (seen_http11 s).
        - split; [done|]. intros Hall.
          destruct Hseen as [(c & Hin & E) _]; [done|].
          apply elem_of_set_iter in Hin. rewrite (Hall c Hin) in E. done.
        - split; [|done]. intros _ c Hin.
          destruct (is_http11 (conn w c)) eqn:E; [|done].
          enough (false = true) by done. apply Hseen.
          exists c. by rewrite elem_of_set_iter. }
      assert (is_Some (pending_connection s) ↔
              ∃ c, c ∈ S ∧ state (conn w c) = PENDING) as Hpend.
      { split.
        - intros [c Hc]. destruct (Hp1 c Hc) as [Hin ?].
          apply elem_of_set_iter in Hin. eauto.
        - intros (c & Hin & Hc). destruct (pending_connection s) eqn:E; [done|].
          exfalso. apply (Hp2 eq_refl c); [|done]. by apply elem_of_set_iter. }
      destruct (_http2 (pool w)); simpl.
      2:{ split; [|done]. split; [|naive_solver]. by intros (c & ? & _). }
      destruct (bool_decide (is_Some (pending_connection s))) eqn:Ep; simpl.
      2:{ apply bool_decide_eq_false in Ep. rewrite Hpend in Ep.
          split; [|done]. split; [|naive_solver]. by intros (c & ? & _). }
      apply bool_decide_eq_true in Ep.
      destruct (seen_http11 s) eqn:Es; simpl.
      * split; [|done]. split; [by intros (c & ? & _)|].
        intros (_ & _ & Hall). apply Hseen0 in Hall. done.
      * split.
        -- split; [intros _; split_and!; [done|by apply Hpend|by apply Hseen0]|].
           intros _. destruct Ep as [c Hc]. exists c.
           destruct (Hp1 c Hc) as [Hin ?]. apply elem_of_set_iter in Hin. done.
        -- intros Hn. exfalso. apply Hn.
           split_and!; [done|by apply Hpend|by apply Hseen0].
Qed.

End Selection.

(** ** Admission and eviction *)

Section AdmissionEviction.
Implicit Types (w : World) (c : AsyncHTTPConnection).

Lemma dict_add_insert c (m : gmap Origin (gset AsyncHTTPConnection)) :
  dict_add c m = <[origin c := connections_get m (origin c) ∪ {[c]}]> m.
Proof.
  apply map_eq. intros o. rewrite lookup_dict_add.
  destruct (decide (o = origin c)) as [->|Hne].
  - by rewrite lookup_insert_eq.
  - by rewrite lookup_insert_ne.
Qed.

Lemma add_trace c timeout w :
  trace (_add_to_pool c timeout w).2 =
    trace w ++ EvAcquire (mjoin (default ∅ timeout !! "pool"%string)) ::
      match (_add_to_pool c timeout w).1 with
      | Ret _ => [EvAdd c]
      | _ => []
      end.
Proof.
  unfold _add_to_pool.
  set (t := mjoin _).
  destruct (acquire_rest t w) as (_ & _ & _ & Ht).
  destruct (acquire t w) as [[[]|e|] w1]; simpl in *; rewrite Ht; [|done..].
  by rewrite <- app_assoc.
Qed.

(** C4. [_add_to_pool] first acquires a permit of the semaphore, with the
    value at key "pool" of the timeout mapping as the timeout.  If the
    acquisition times out the call fails with [PoolTimeout] and the
    connections map is unchanged; the connection is put into
    [connections[connection.origin]] (a set created when absent) only once
    the permit is acquired. *)
Theorem add_to_pool_admission c (timeout : option TimeoutDict) w :
  match (acquire (mjoin (default ∅ timeout !! "pool"%string)) w).1 with
  | Ret _ =>
      (_add_to_pool c timeout w).1 = Ret tt ∧
      _connections (pool (_add_to_pool c timeout w).2) =
        <[origin c := connections_get (_connections (pool w)) (origin c) ∪ {[c]}]>
          (_connections (pool w)) ∧
      trace (_add_to_pool c timeout w).2 =
        trace w ++ [EvAcquire (mjoin (default ∅ timeout !! "pool"%string)); EvAdd c]
  | Raise e =>
      e = PoolTimeout ∧
      (_add_to_pool c timeout w).1 = Raise PoolTimeout ∧
      _connections (pool (_add_to_pool c timeout w).2) = _connections (pool w) ∧
      trace (_add_to_pool c timeout w).2 =
        trace w ++ [EvAcquire (mjoin (default ∅ timeout !! "pool"%string))]
  | Hang =>
      (_add_to_pool c timeout w).1 = Hang ∧
      _connections (pool (_add_to_pool c timeout w).2) = _connections (pool w) ∧
      trace (_add_to_pool c timeout w).2 =
        trace w ++ [EvAcquire (mjoin (default ∅ timeout !! "pool"%string))]
  end.
Proof.
  pose proof (add_result c timeout w) as Hr.
  pose proof (add_connections c timeout w) as Hm.
  pose proof (add_trace c timeout w) as Ht.
  pose proof (acquire_result (mjoin (default ∅ timeout !! "pool"%string)) w) as Ha.
  rewrite Hr in Hm, Ht.
  destruct ((acquire (mjoin (default ∅ timeout !! "pool"%string)) w).1)
    as [[]|e|] eqn:E.
  - by rewrite Hr, Hm, Ht, dict_add_insert.
  - rewrite Hr, Hm, Ht. split_and!; try done.
    + destruct (semaphore_of (pool w)) as [|[|v]], (mjoin _); congruence.
    + f_equal.
      destruct (semaphore_of (pool w)) as [|[|v]], (mjoin _); congruence.
  - by rewrite Hr, Hm, Ht.
Qed.

(** C8. [_remove_from_pool] is idempotent: removing a connection twice
    leaves the same state (the connections map, the permits of the
    semaphore, and everything else) as removing it once; and when the
    connection is not in [connections[connection.origin]], the call changes
    nothing and releases no permit. *)
Theorem remove_from_pool_idempotent c w :
  _remove_from_pool c (_remove_from_pool c w) = _remove_from_pool c w ∧
  (c ∉ connections_get (_connections (pool w)) (origin c) →
   _remove_from_pool c w = w ∧
   semaphore_of (pool (_remove_from_pool c w)) = semaphore_of (pool w) ∧
   trace (_remove_from_pool c w) = trace w).
Proof.
  split.
  - apply remove_absent, remove_not_present.
  - intros Hn. by rewrite remove_absent.
Qed.

End AdmissionEviction.

(** ** The keep-alive sweep *)

Section Sweep.
Context `{!ConnectionMethods} `{!SetIteration}.
Implicit Types (w : World) (c x : AsyncHTTPConnection).
Implicit Types (l : list AsyncHTTPConnection).

Lemma sweep_foldl now (st : Store) l acc w :
  conn w = st →
  foldl (sweep_step now) (acc, w) l =
    (acc ∪ list_to_set (filter (λ c, expired now (st c) = true) l),
     remove_all (filter (λ c, expired now (st c) = true) l) w).
Proof.
  revert acc w. induction l as [|c l IH]; intros acc w Hst.
  - simpl. by rewrite union_empty_r_L.
  - simpl. rewrite Hst.
    destruct (expired now (st c)) eqn:E.
    + rewrite IH by (by destruct (remove_rest c w) as (-> & _)).
      rewrite filter_cons_True by done. simpl.
      f_equal. set_solver.
    + rewrite IH by done. by rewrite filter_cons_False by congruence.
Qed.

(** The sweep when it is not due, and when it is. *)
Lemma sweep_not_due w :
  sweep_due w = false → (_keepalive_sweep w).2 = w.
Proof.
  unfold sweep_due, _keepalive_sweep. intros Hd.
  destruct (_keepalive_expiry (pool w)); [|done].
  by destruct (PrimFloat.ltb _ _).
Qed.

Lemma sweep_unset w :
  _keepalive_expiry (pool w) = None →
  _keepalive_sweep w = (Raise AssertionError, w).
Proof. unfold _keepalive_sweep. by intros ->. Qed.

Lemma sweep_runs w :
  is_Some (_keepalive_expiry (pool w)) → sweep_due w = true →
  _keepalive_sweep w =
    (Ret tt,
     close_all
       (set_iter (list_to_set
          (filter (λ c, expired (clock w) (conn w c) = true)
             (set_iter (_get_all_connections (pool w))))))
       (remove_all
          (filter (λ c, expired (clock w) (conn w c) = true)
             (set_iter (_get_all_connections (pool w))))
          (set_pool (set_next_keepalive_check (clock w + 1)%float) w))).
Proof.
  unfold sweep_due, _keepalive_sweep. intros [e ->] Hd.
  destruct (PrimFloat.ltb _ _); [done|].
  rewrite (sweep_foldl (clock w) (conn w)) by done.
  by rewrite union_empty_l_L.
Qed.

Lemma set_next_inv t w :
  pool_inv (pool w) →
  pool_inv (pool (set_pool (set_next_keepalive_check t) w)).
Proof. by intros (? & ? & ?). Qed.

Lemma sweep_evolves w :
  (_keepalive_sweep w).2 = w ∨
  (is_Some (_keepalive_expiry (pool w)) ∧ sweep_due w = true ∧
   evolves (set_pool (set_next_keepalive_check (clock w + 1)%float) w)
     (_keepalive_sweep w).2).
Proof.
  destruct (_keepalive_expiry (pool w)) as [e|] eqn:Ee.
  2:{ left. by rewrite sweep_unset. }
  destruct (sweep_due w) eqn:Ed.
  2:{ left. by apply sweep_not_due. }
  right. split_and!; [done..|].
  rewrite sweep_runs by (by rewrite ?Ee).
  simpl. eapply evolves_trans; [apply remove_all_evolves|].
  apply evolves_core, close_all_same_core.
Qed.

Lemma sweep_inv w :
  pool_inv (pool w) → pool_inv (pool (_keepalive_sweep w).2).
Proof.
  intros Hinv. destruct (sweep_evolves w) as [->|(_ & _ & Hev)]; [done|].
  eapply evolves_inv; [done|]. by apply set_next_inv.
Qed.

Lemma sweep_config w :
  config (pool (_keepalive_sweep w).2) = config (pool w).
Proof.
  destruct (sweep_evolves w) as [->|(_ & _ & Hev)]; [done|].
  by rewrite (evolves_config _ _ Hev).
Qed.

Lemma sweep_next_keepalive_check w :
  _next_keepalive_check (pool (_keepalive_sweep w).2) =
    if bool_decide (is_Some (_keepalive_expiry (pool w))) && sweep_due w
    then (clock w + 1)%float else _next_keepalive_check (pool w).
Proof.
  destruct (_keepalive_expiry (pool w)) as [e|] eqn:Ee.
  2:{ rewrite sweep_unset by done. rewrite bool_decide_eq_false_2; [done|].
      by intros [? ?]. }
  rewrite bool_decide_eq_true_2 by done. simpl.
  destruct (sweep_due w) eqn:Ed.
  2:{ by rewrite sweep_not_due. }
  destruct (sweep_evolves w) as [Heq|(_ & _ & Hev)].
  - rewrite sweep_runs in Heq |- * by (by rewrite ?Ee). simpl in *.
    destruct (close_all_pool
      (set_iter (list_to_set (filter (λ c, expired (clock w) (conn w c) = true)
         (set_iter (_get_all_connections (pool w))))))
      (remove_all (filter (λ c, expired (clock w) (conn w c) = true)
         (set_iter (_get_all_connections (pool w))))
         (set_pool (set_next_keepalive_check (clock w + 1)%float) w))) as (-> & _).
    by destruct (remove_all_rest (filter (λ c, expired (clock w) (conn w c) = true)
         (set_iter (_get_all_connections (pool w))))
         (set_pool (set_next_keepalive_check (clock w + 1)%float) w)) as (_ & _ & _ & ->).
  - by rewrite (evolves_next_keepalive_check _ _ Hev).
Qed.

End Sweep.

(** ** Every operation moves the pool by additions and removals only *)

Section Evolution.
Context `{!ConnectionMethods} `{!UrlUtils} `{!SetIteration}.
Implicit Types (w : World) (c x : AsyncHTTPConnection) (o : Origin).

Lemma get_connection_evolves o w :
  evolves w (_get_connection_from_pool o w).2.
Proof.
  unfold _get_connection_from_pool.
  pose proof (scanned_foldl w (set_iter (_connections_for_origin (pool w) o)))
    as (Hw & _).
  destruct (foldl scan_step _ _) as [s w1]. simpl in Hw.
  apply (evolves_trans _ w1); [rewrite Hw; apply remove_all_evolves|].
  clear Hw. destruct (reuse_connection s) as [c|].
  - simpl. eapply evolves_trans; [|apply evolves_core, close_all_same_core].
    by apply evolves_core.
  - destruct (_ && _ && _); simpl; apply evolves_core, close_all_same_core.
Qed.

Lemma response_closed_evolves c w : evolves w (_response_closed c w).
Proof.
  unfold _response_closed.
  destruct (state (conn w c)); try apply evolves_refl.
  - destruct (match _max_keepalive (pool w) with Some _ => _ | None => _ end).
    + eapply evolves_trans; [apply evolves_remove|]. by apply evolves_core.
    + destruct (_keepalive_expiry (pool w)); [by apply evolves_core|apply evolves_refl].
  - apply evolves_remove.
Qed.

Lemma aclose_evolves w : evolves w (aclose w).
Proof.
  unfold aclose.
  eapply evolves_trans; [apply remove_all_evolves|].
  apply evolves_core, close_all_same_core.
Qed.

Lemma get_or_create_evolves o timeout w :
  evolves w (get_or_create o timeout w).2.
Proof.
  unfold get_or_create.
  pose proof (get_connection_evolves o w) as He.
  destruct (_get_connection_from_pool o w) as [[c|] w1]; [done|].
  simpl in *. eapply evolves_trans; [exact He|].
  set (c := {| conn_id := next_conn_id w1; origin := o |}).
  set (w2 := {| pool := pool w1; conn := _; clock := _; next_conn_id := _; trace := _ |}).
  pose proof (evolves_add c timeout w2) as Ha.
  eapply evolves_trans; [apply (evolves_core w1 w2); by split_and!|].
  by destruct (_add_to_pool c timeout w2) as [[[]|e|] w3].
Qed.

Lemma request_loop_evolves o timeout script w :
  evolves w (request_loop o timeout script w).2.
Proof.
  revert w. induction script as [|reply script IH]; intros w; simpl;
    pose proof (get_or_create_evolves o timeout w) as He;
    destruct (get_or_create o timeout w) as [[c|e|] w1]; simpl in *; try done.
  - eapply evolves_trans; [exact He|]. by apply evolves_core.
  - assert (evolves w (conn_request c reply w1)) as He'.
    { eapply evolves_trans; [exact He|]. by apply evolves_core. }
    destruct (reply_result reply) as [e|response]; [|done].
    destruct e; simpl; try done.
    + eapply evolves_trans; [exact He'|apply evolves_remove].
    + eapply evolves_trans; [exact He'|apply IH].
    + eapply evolves_trans; [exact He'|apply evolves_remove].
    + eapply evolves_trans; [exact He'|apply evolves_remove].
Qed.

Lemma stream_aclose_evolves s c w :
  evolves w (ResponseByteStream_aclose (wrap_stream s c) w).2.
Proof.
  unfold ResponseByteStream_aclose. simpl.
  destruct (stream_aclose s (conn w)) as [r st]. simpl.
  destruct r as [[]|e|]; simpl.
  - eapply evolves_trans; [|apply response_closed_evolves]. by apply evolves_core.
  - eapply evolves_trans; [|apply response_closed_evolves]. by apply evolves_core.
  - by apply evolves_core.
Qed.

(** [request]: the sweep, if any, and then the loop. *)
Lemma request_world url timeout script w :
  (request url timeout script w).2 =
    if bool_decide (url.1.1.1 = "http"%string ∨ url.1.1.1 = "https"%string)
    then (request_loop (url_to_origin url) timeout script
            (match _keepalive_expiry (pool w) with
             | Some _ => (_keepalive_sweep w).2
             | None => w
             end)).2
    else w.
Proof.
  unfold request. destruct (bool_decide _); [|done].
  destruct (_keepalive_expiry (pool w)) as [e|] eqn:Ee.
  - destruct (_keepalive_sweep w) as [r w1] eqn:Es.
    assert (r = Ret tt) as ->.
    { revert Es. unfold _keepalive_sweep. rewrite Ee.
      destruct (PrimFloat.ltb _ _); [by intros [= <- _]|].
      destruct (foldl _ _ _). by intros [= <- _]. }
    simpl. by destruct (request_loop _ timeout script w1) as [[[response c]|e'|] w2].
  - by destruct (request_loop _ timeout script w) as [[[response c]|e'|] w2].
Qed.

Lemma run_inv op w : pool_inv (pool w) → pool_inv (pool (run op w)).
Proof.
  intros Hinv. destruct op as [url t script|c t|c|c|s c| | |f t n]; simpl.
  - rewrite request_world. destruct (bool_decide _); [|done].
    apply (evolves_inv _ _ (request_loop_evolves _ _ _ _)).
    destruct (_keepalive_expiry (pool w)); [by apply sweep_inv|done].
  - by apply pool_inv_add.
  - by apply pool_inv_remove.
  - by apply (evolves_inv _ _ (response_closed_evolves _ _)).
  - by apply (evolves_inv _ _ (stream_aclose_evolves _ _ _)).
  - by apply sweep_inv.
  - by apply (evolves_inv _ _ (aclose_evolves _)).
  - done.
Qed.

Lemma run_config op w : config (pool (run op w)) = config (pool w).
Proof.
  destruct op as [url t script|c t|c|c|s c| | |f t n]; simpl.
  - rewrite request_world. destruct (bool_decide _); [|done].
    rewrite (evolves_config _ _ (request_loop_evolves _ _ _ _)).
    destruct (_keepalive_expiry (pool w)); [apply sweep_config|done].
  - by destruct (add_pool c t w) as (-> & _).
  - by destruct (remove_pool c w) as (-> & _).
  - by apply (evolves_config _ _ (response_closed_evolves _ _)).
  - by apply (evolves_config _ _ (stream_aclose_evolves _ _ _)).
  - apply sweep_config.
  - by apply (evolves_config _ _ (aclose_evolves _)).
  - done.
Qed.

Lemma reachable_inv w : reachable w → pool_inv (pool w).
Proof.
  induction 1 as [w (mc & mk & ke & h2 & ->)|op w _ IH].
  - apply pool_inv_init.
  - by apply run_inv.
Qed.

End Evolution.

(** ** The bound on the number of connections *)

Section Bound.
Context `{!ConnectionMethods} `{!UrlUtils} `{!SetIteration}.
Implicit Types (w : World) (c x : AsyncHTTPConnection) (o : Origin).

Lemma reachable_run_ops ops w : reachable w → reachable (run_ops ops w).
Proof.
  revert w. induction ops as [|op ops IH]; intros w Hr; [done|].
  simpl. apply IH. by apply reachable_step.
Qed.

Lemma filed_insert_inv (m : gmap Origin (gset AsyncHTTPConnection)) o s :
  m !! o = None → filed (<[o := s]> m) → filed m.
Proof.
  intros Hnone Hf o' s' c Hl Hin. apply (Hf o' s' c); [|done].
  rewrite lookup_insert_ne; [done|]. intros ->. congruence.
Qed.

Lemma total_connections_size (m : gmap Origin (gset AsyncHTTPConnection)) :
  ∀ p, _connections p = m → filed m →
       total_connections m = size (_get_all_connections p).
Proof.
  unfold total_connections.
  apply (map_fold_weak_ind (λ (r : nat) m,
    ∀ p, _connections p = m → filed m → r = size (_get_all_connections p))).
  - intros p Hp _. by rewrite get_all_empty, size_empty.
  - intros o s m' r Hnone IH p Hp Hf.
    rewrite (IH (set_connections m' p) eq_refl (filed_insert_inv _ _ _ Hnone Hf)).
    assert (_get_all_connections p =
            s ∪ _get_all_connections (set_connections m' p)) as ->.
    { apply set_eq. intros x. rewrite elem_of_union, !elem_of_get_all, Hp. simpl.
      split.
      - intros (o' & s' & Hl & Hin). destruct (decide (o = o')) as [->|Hne].
        + rewrite lookup_insert_eq in Hl. left. congruence.
        + rewrite lookup_insert_ne in Hl by done. right. eauto.
      - intros [Hin|(o' & s' & Hl & Hin)].
        + exists o, s. by rewrite lookup_insert_eq.
        + exists o', s'. split; [|done]. rewrite lookup_insert_ne; [done|].
          intros ->. congruence. }
    rewrite size_union; [done|].
    intros x Hx Hall. apply elem_of_get_all in Hall as (o' & s' & Hl & Hin).
    simpl in Hl.
    assert (origin x = o) as Ho.
    { apply (Hf o s x); [by rewrite lookup_insert_eq|done]. }
    assert (origin x = o') as Ho'.
    { apply (Hf o' s' x); [|done]. rewrite lookup_insert_ne; [done|].
      intros ->. congruence. }
    congruence.
Qed.

(** C2. With [max_connections] set, in every state reachable by pool
    operations (request, add_to_pool, remove_from_pool, response_closed,
    the close of a response stream, keepalive_sweep, aclose) and moves of
    the surroundings, the number of connections in the connections map,
    over all origins, is at most [max_connections]. *)
Theorem total_connections_bounded w n :
  reachable w →
  _max_connections (pool w) = Some n →
  total_connections (_connections (pool w)) ≤ n ∧
  size (_get_all_connections (pool w)) ≤ n.
Proof.
  intros Hr Hmax. destruct (reachable_inv w Hr) as (Hf & _ & Hp).
  rewrite (total_connections_size _ (pool w) eq_refl Hf).
  unfold permits_ok in Hp. rewrite Hmax in Hp.
  destruct (semaphore_of (pool w)); [done|]. lia.
Qed.

(** C10. In every reachable state, every origin key of the connections
    map maps to a non-empty set; [_add_to_pool] and [_remove_from_pool]
    keep it so: the first creates a set only to insert into it, the second
    deletes the key of a set it has emptied. *)
Theorem origin_sets_nonempty w :
  reachable w →
  (∀ o s, _connections (pool w) !! o = Some s → s ≠ ∅) ∧
  (∀ c timeout o s,
     _connections (pool (_add_to_pool c timeout w).2) !! o = Some s → s ≠ ∅) ∧
  (∀ c o s,
     _connections (pool (_remove_from_pool c w)) !! o = Some s → s ≠ ∅) ∧
  (∀ c, connections_get (_connections (pool w)) (origin c) ∖ {[c]} = ∅ →
        _connections (pool (_remove_from_pool c w)) !! origin c = None).
Proof.
  intros Hr. split_and!.
  - by destruct (reachable_inv w Hr) as (_ & Hn & _).
  - intros c timeout.
    by destruct (reachable_inv _ (reachable_step (OpAddToPool c timeout) w Hr))
      as (_ & Hn & _).
  - intros c.
    by destruct (reachable_inv _ (reachable_step (OpRemoveFromPool c) w Hr))
      as (_ & Hn & _).
  - intros c Hempty. rewrite remove_connections.
    destruct (decide (present c w)) as [Hp|Hnp].
    + rewrite lookup_dict_remove, decide_True by done.
      unfold connections_get in Hempty.
      destruct (_connections (pool w) !! origin c); [|done].
      simpl in Hempty. by rewrite decide_True.
    + unfold present, connections_get in *.
      destruct (_connections (pool w) !! origin c) as [s|] eqn:E; [|done].
      simpl in *. destruct (reachable_inv w Hr) as (_ & Hn & _).
      exfalso. apply (Hn _ _ E). set_solver.
Qed.

End Bound.

(** ** The sweep, the shutdown *)

Section SweepShutdown.
Context `{!ConnectionMethods} `{!UrlUtils} `{!SetIteration}.
Implicit Types (w : World) (c x : AsyncHTTPConnection) (o : Origin).

Lemma present_get_all w c :
  filed (_connections (pool w)) →
  c ∈ _get_all_connections (pool w) ↔ present c w.
Proof. apply elem_of_get_all_filed. Qed.

(** C5 (amended at the boundary). With [keepalive_expiry] set, a sweep
    that runs its scan at time [now] removes from the pool exactly the
    connections whose state is IDLE, whose [expires_at] is set and for
    which [now > expires_at]; afterwards every IDLE connection left in the
    pool has no [expires_at], or one for which [now > expires_at] is false
    (it expires at [now] or later). *)
Theorem keepalive_sweep_removes_expired w :
  reachable w →
  is_Some (_keepalive_expiry (pool w)) →
  sweep_due w = true →
  (∀ c, c ∈ _get_all_connections (pool (_keepalive_sweep w).2) ↔
        c ∈ _get_all_connections (pool w) ∧
        ¬ (state (conn w c) = IDLE ∧
           ∃ e, expires_at (conn w c) = Some e ∧ PrimFloat.ltb e (clock w) = true)) ∧
  (∀ c, c ∈ _get_all_connections (pool (_keepalive_sweep w).2) →
        state (conn (_keepalive_sweep w).2 c) = IDLE →
        expires_at (conn (_keepalive_sweep w).2 c) = None ∨
        ∃ e, expires_at (conn (_keepalive_sweep w).2 c) = Some e ∧
             PrimFloat.ltb e (clock w) = false).
Proof.
  intros Hr He Hd.
  pose proof (reachable_inv _ (reachable_step OpKeepaliveSweep w Hr)) as (Hf' & _).
  pose proof (reachable_inv _ Hr) as (Hf & _).
  simpl in Hf'. revert Hf'. rewrite sweep_runs by done. simpl.
  set (ex := filter (λ c, expired (clock w) (conn w c) = true)
               (set_iter (_get_all_connections (pool w)))).
  set (w1 := set_pool (set_next_keepalive_check (clock w + 1)%float) w).
  destruct (close_all_pool (set_iter (list_to_set ex)) (remove_all ex w1))
    as (Hp & _).
  rewrite Hp. intros Hf'.
  assert (Hexp : ∀ c, expired (clock w) (conn w c) = true ↔
            state (conn w c) = IDLE ∧
            ∃ e, expires_at (conn w c) = Some e ∧ PrimFloat.ltb e (clock w) = true).
  { intros c. unfold expired.
    destruct (state (conn w c)), (expires_at (conn w c)) as [e|];
      split; try done; try (by intros [? ?]); try (by intros [_ (? & ? & _)]).
    - intros E. split; [done|]. by exists e.
    - by intros [_ (e' & [= <-] & E)]. }
  assert (Hin : ∀ c, c ∈ _get_all_connections (pool (remove_all ex w1)) ↔
            c ∈ _get_all_connections (pool w) ∧ expired (clock w) (conn w c) ≠ true).
  { intros c. rewrite !present_get_all by done.
    rewrite remove_all_present. unfold ex.
    rewrite list_elem_of_filter, elem_of_set_iter, present_get_all by done.
    change (present c w1) with (present c w). tauto. }
  split.
  - intros c. rewrite Hin, <- Hexp. done.
  - intros c Hc. apply Hin in Hc as [Hc Hne].
    rewrite close_all_conn.
    2:{ rewrite elem_of_set_iter, elem_of_list_to_set. unfold ex.
        rewrite list_elem_of_filter. tauto. }
    destruct (remove_all_rest ex w1) as (-> & _). simpl.
    intros Hst. destruct (expires_at (conn w c)) as [e|] eqn:Ee; [|by left].
    right. exists e. split; [done|].
    destruct (PrimFloat.ltb e (clock w)) eqn:E; [|done].
    exfalso. apply Hne. apply Hexp. eauto.
Qed.

(** C7. After [aclose()], the connections map of the pool is empty; and
    every connection that was in the pool has been removed from the pool
    (its permit released) before the first [aclose()] of a connection is
    called, so before its own. *)
Theorem aclose_empties_pool w :
  reachable w →
  _connections (pool (aclose w)) = ∅ ∧
  ∃ cs, cs ≡ₚ elements (_get_all_connections (pool w)) ∧
        trace (aclose w) =
          trace w ++ (cs ≫= λ c, [EvRelease; EvRemove c])
                  ++ (EvConnAclose <$> cs).
Proof.
  intros Hr.
  pose proof (reachable_inv _ (reachable_step OpAclose w Hr)) as (Hf' & Hn' & _).
  pose proof (reachable_inv _ Hr) as (Hf & _).
  simpl in Hf', Hn'. revert Hf' Hn'. unfold aclose. cbv zeta.
  set (cs := set_iter (_get_all_connections (pool w))).
  change (foldl (λ w0 c, _remove_from_pool c w0) w cs) with (remove_all cs w).
  destruct (close_all_pool cs (remove_all cs w)) as (-> & _ & _ & ->).
  intros Hf' Hn'. split.
  - apply map_eq. intros o. rewrite lookup_empty.
    destruct (_connections (pool (remove_all cs w)) !! o) as [s|] eqn:E; [|done].
    exfalso. destruct (set_choose_L s (Hn' _ _ E)) as [x Hx].
    assert (present x (remove_all cs w)) as Hp.
    { unfold present, connections_get. rewrite (Hf' _ _ _ E Hx), E. done. }
    apply remove_all_present in Hp as [Hp Hnot]. apply Hnot.
    unfold cs. rewrite elem_of_set_iter. by apply present_get_all.
  - exists cs. split; [apply set_iter_perm|].
    rewrite remove_all_trace by apply NoDup_set_iter.
    rewrite <- app_assoc. do 2 f_equal.
    apply removal_events_present. intros c Hc. unfold cs in Hc.
    by rewrite elem_of_set_iter, present_get_all in Hc.
Qed.

End SweepShutdown.

(** ** The rate limit of the sweep *)

Section RateLimit.
Context `{!ConnectionMethods} `{!UrlUtils} `{!SetIteration}.
Implicit Types (w : World) (c x : AsyncHTTPConnection) (o : Origin).

Lemma run_next_keepalive_check op w :
  runs_scan op w = false →
  _next_keepalive_check (pool (run op w)) = _next_keepalive_check (pool w).
Proof.
  destruct op as [url t script|c t|c|c|s c| | |f t n]; simpl; intros Hq.
  - rewrite request_world. destruct (bool_decide _); [|done]. simpl in Hq.
    rewrite (evolves_next_keepalive_check _ _ (request_loop_evolves _ _ _ _)).
    destruct (_keepalive_expiry (pool w)) eqn:Ee; [|done].
    rewrite sweep_next_keepalive_check, Ee.
    rewrite bool_decide_eq_true_2 in Hq |- * by done. simpl in *. by rewrite Hq.
  - by destruct (add_pool c t w) as (_ & -> & _).
  - by destruct (remove_pool c w) as (_ & -> & _).
  - by apply (evolves_next_keepalive_check _ _ (response_closed_evolves _ _)).
  - by apply (evolves_next_keepalive_check _ _ (stream_aclose_evolves _ _ _)).
  - by rewrite sweep_next_keepalive_check, Hq.
  - by apply (evolves_next_keepalive_check _ _ (aclose_evolves _)).
  - done.
Qed.

Lemma no_scan_next_keepalive_check ops w :
  no_scan ops w →
  _next_keepalive_check (pool (run_ops ops w)) = _next_keepalive_check (pool w).
Proof.
  revert w. induction ops as [|op ops IH]; intros w; [done|].
  simpl. intros [Hq Hn]. rewrite IH by done. by apply run_next_keepalive_check.
Qed.

(** C9. The scan of the keep-alive sweep does not run twice within one
    second.  A sweep invoked at a time [now < next_keepalive_check] is a
    no-op: it changes nothing.  A sweep that runs its scan at time [now]
    sets [next_keepalive_check] to [now + 1.0]; and however the pool is
    used afterwards, as long as no scan has run since, a sweep invoked at a
    time before [now + 1.0] is again a no-op. *)
Theorem keepalive_sweep_rate_limit w ops :
  (PrimFloat.ltb (clock w) (_next_keepalive_check (pool w)) = true →
   (_keepalive_sweep w).2 = w) ∧
  (is_Some (_keepalive_expiry (pool w)) →
   PrimFloat.ltb (clock w) (_next_keepalive_check (pool w)) = false →
   _next_keepalive_check (pool (_keepalive_sweep w).2) = (clock w + 1)%float ∧
   (no_scan ops (_keepalive_sweep w).2 →
    PrimFloat.ltb (clock (run_ops ops (_keepalive_sweep w).2)) (clock w + 1)%float
      = true →
    (_keepalive_sweep (run_ops ops (_keepalive_sweep w).2)).2
      = run_ops ops (_keepalive_sweep w).2)).
Proof.
  split.
  - intros Hlt. apply sweep_not_due. unfold sweep_due. by rewrite Hlt.
  - intros He Hlt.
    assert (_next_keepalive_check (pool (_keepalive_sweep w).2) = (clock w + 1)%float)
      as Hnext.
    { rewrite sweep_next_keepalive_check. unfold sweep_due. rewrite Hlt.
      by rewrite bool_decide_eq_true_2. }
    split; [done|]. intros Hq Hlt'.
    apply sweep_not_due. unfold sweep_due.
    by rewrite (no_scan_next_keepalive_check _ _ Hq), Hnext, Hlt'.
Qed.

End RateLimit.

(** ** The retry loop of [request] *)

Section Retry.
Context `{!ConnectionMethods} `{!UrlUtils} `{!SetIteration}.
Implicit Types (w : World) (c x : AsyncHTTPConnection) (o : Origin).



(** What derives from [BaseException] only passes the [except Exception]
    clause: it reaches the caller, and the connection stays in the pool. *)
Lemma request_loop_non_exception o timeout reply script w c w1 e :
  get_or_create o timeout w = (Ret c, w1) →
  reply_result reply = inl e → is_Exception e = false →
  request_loop o timeout (reply :: script) w = (Raise e, conn_request c reply w1).
Proof.
  intros Hg Hr He. simpl. rewrite Hg, Hr. by destruct e.
Qed.

End Retry.

(** ** The close of a response stream *)

Section StreamClose.
Context `{!ConnectionMethods} `{!UrlUtils} `{!SetIteration}.
Implicit Types (w : World) (c x : AsyncHTTPConnection) (o : Origin).

Lemma response_closed_trace c w :
  ∃ t, trace (_response_closed c w) = trace w ++ t ∧
       ∀ c', filter (λ e, is_callback_of c' e = true) t = [].
Proof.
  unfold _response_closed.
  destruct (state (conn w c)); try (by exists []; rewrite app_nil_r).
  - destruct (match _max_keepalive (pool w) with Some _ => _ | None => _ end).
    + simpl. destruct (remove_rest c w) as (_ & _ & _ & ->).
      eexists. rewrite <- app_assoc. split; [done|].
      intros c'. by destruct (decide (present c w)).
    + destruct (_keepalive_expiry (pool w)); by exists []; rewrite app_nil_r.
  - destruct (remove_rest c w) as (_ & _ & _ & ->).
    eexists. split; [done|]. intros c'. by destruct (decide (present c w)).
Qed.

(** The streams that [request] returns are wrapped, with the connection
    the request went to and the pool's [_response_closed] as callback. *)
Lemma request_returns_wrapped url timeout script w a b d h bs :
  (request url timeout script w).1 = Ret (a, b, d, h, bs) →
  ∃ response c,
    (request_loop (url_to_origin url) timeout script
       (match _keepalive_expiry (pool w) with
        | Some _ => (_keepalive_sweep w).2
        | None => w
        end)).1 = Ret (response, c) ∧
    bs = wrap_stream (response_4 response) c.
Proof.
  unfold request. destruct (bool_decide _); [|done].
  destruct (match _keepalive_expiry (pool w) with Some _ => _ | None => _ end)
    as [r w1] eqn:Es.
  assert (w1 = match _keepalive_expiry (pool w) with
               | Some _ => (_keepalive_sweep w).2 | None => w end) as <-.
  { destruct (_keepalive_expiry (pool w)); [by rewrite Es|by inversion Es]. }
  destruct r as [[]|e|]; [|done..].
  destruct (request_loop _ timeout script w1) as [[[response c]|e'|] w2]; [|done..].
  simpl. intros [= <- <- <- <- <-]. eauto.
Qed.

(** C6. Closing the wrapped stream of a response closes the inner stream
    first and then calls the pool's [_response_closed] on the stream's
    connection, exactly once, whether the inner close returns or raises;
    when the inner close raises, the callback has run before the error
    reaches the caller. *)
Theorem response_stream_aclose_calls_back s c w r st :
  stream_aclose s (conn w) = (r, st) →
  r ≠ Hang →
  ResponseByteStream_aclose (wrap_stream s c) w =
    (r, _response_closed c
          (log (EvCallback c)
             (set_conn (λ _, st) (log (EvStreamAclose (stream_id s)) w)))) ∧
  ∃ t, trace (ResponseByteStream_aclose (wrap_stream s c) w).2 =
         trace w ++ EvStreamAclose (stream_id s) :: EvCallback c :: t ∧
       length (filter (λ e, is_callback_of c e = true)
                 (EvStreamAclose (stream_id s) :: EvCallback c :: t)) = 1.
Proof.
  intros Hs Hr. unfold ResponseByteStream_aclose. simpl. rewrite Hs.
  set (w1 := log (EvCallback c) _).
  destruct (response_closed_trace c w1) as (t & Ht & Hnone).
  assert (∃ t, trace (_response_closed c w1) =
             trace w ++ EvStreamAclose (stream_id s) :: EvCallback c :: t ∧
           length (filter (λ e, is_callback_of c e = true)
             (EvStreamAclose (stream_id s) :: EvCallback c :: t)) = 1) as Htr.
  { exists t. split.
    - rewrite Ht. simpl. by rewrite <- !app_assoc.
    - rewrite filter_cons_False by done.
      rewrite filter_cons_True by (simpl; by rewrite bool_decide_eq_true_2).
      by rewrite Hnone. }
  by destruct r as [[]|e|].
Qed.

End StreamClose.


(** ** More on selection: what the pool looks like afterwards *)

Section SelectionShape.
Context `{!ConnectionMethods} `{!SetIteration}.
Implicit Types (w : World) (c x : AsyncHTTPConnection) (o : Origin).

(** [_get_connection_from_pool], with its loop replaced by what the loop
    computes. *)
Lemma get_connection_shape o w :
  ∃ s,
    scanned w (set_iter (_connections_for_origin (pool w) o))
      (s, remove_all (filter (λ c, dropped_idle (conn w c))
                        (set_iter (_connections_for_origin (pool w) o))) w) ∧
    _get_connection_from_pool o w =
      match reuse_connection s with
      | Some c =>
          (Some c,
           close_all (set_iter (connections_to_close s))
             (assign_expires_at c None
                (mark_as_ready c
                   (remove_all (filter (λ c, dropped_idle (conn w c))
                      (set_iter (_connections_for_origin (pool w) o))) w))))
      | None =>
          (if _http2 (pool w) && bool_decide (is_Some (pending_connection s))
              && negb (seen_http11 s)
           then pending_connection s else None,
           close_all (set_iter (connections_to_close s))
             (remove_all (filter (λ c, dropped_idle (conn w c))
                (set_iter (_connections_for_origin (pool w) o))) w))
      end.
Proof.
  unfold _get_connection_from_pool.
  pose proof (scanned_foldl w (set_iter (_connections_for_origin (pool w) o))) as Hs.
  destruct (foldl scan_step _ _) as [s w1].
  pose proof Hs as (Hw & _). simpl in Hw. subst w1.
  exists s. split; [done|].
  destruct (reuse_connection s) as [c|]; [done|].
  set (dropped := filter _ _).
  assert (_http2 (pool (remove_all dropped w)) = _http2 (pool w)) as ->.
  { pose proof (evolves_config _ _ (remove_all_evolves dropped w)) as E.
    unfold config in E. congruence. }
  by destruct (_ && _ && _).
Qed.

Lemma get_connection_pool o w :
  pool (_get_connection_from_pool o w).2 =
    pool (remove_all (filter (λ c, dropped_idle (conn w c))
                        (set_iter (_connections_for_origin (pool w) o))) w).
Proof.
  destruct (get_connection_shape o w) as (s & _ & ->).
  destruct (reuse_connection s) as [c|]; simpl.
  - by destruct (close_all_pool (set_iter (connections_to_close s))
        (assign_expires_at c None (mark_as_ready c
          (remove_all (filter (λ c, dropped_idle (conn w c))
             (set_iter (_connections_for_origin (pool w) o))) w)))) as (-> & _).
  - by destruct (close_all_pool (set_iter (connections_to_close s))
        (remove_all (filter (λ c, dropped_idle (conn w c))
           (set_iter (_connections_for_origin (pool w) o))) w)) as (-> & _).
Qed.

(** What selection hands out is in the set of the origin, is not an idle
    connection that was dropped, and is a reuse candidate or PENDING. *)
Lemma get_connection_result o w c :
  (_get_connection_from_pool o w).1 = Some c →
  c ∈ _connections_for_origin (pool w) o ∧
  ¬ dropped_idle (conn w c) ∧
  (reuse_candidate (conn w c) ∨
   (state (conn w c) = PENDING ∧
    ∀ x, x ∈ _connections_for_origin (pool w) o → ¬ reuse_candidate (conn w x))).
Proof.
  destruct (get_connection_shape o w) as (s & (_ & _ & _ & Hr1 & Hr2 & Hp1 & _) & ->).
  simpl in *. destruct (reuse_connection s) as [c'|]; simpl.
  - intros [= <-]. destruct (Hr1 c' eq_refl) as [Hin Hc].
    apply elem_of_set_iter in Hin. split_and!; [done| |by left].
    by apply reuse_candidate_not_dropped.
  - destruct (_ && _ && _); [|done]. intros Hp.
    destruct (Hp1 c Hp) as [Hin Hst]. apply elem_of_set_iter in Hin.
    split_and!; [done| |right].
    + unfold dropped_idle. rewrite Hst. by intros [? _].
    + split; [done|]. intros x Hx. apply (Hr2 eq_refl). by apply elem_of_set_iter.
Qed.

Lemma get_connection_present o w x :
  filed (_connections (pool w)) →
  present x (_get_connection_from_pool o w).2 ↔
  present x w ∧ ¬ (origin x = o ∧ dropped_idle (conn w x)).
Proof.
  intros Hf. unfold present at 1. rewrite get_connection_pool.
  change (x ∈ connections_get (_connections (pool ?w')) (origin x))
    with (present x w').
  rewrite remove_all_present, list_elem_of_filter, elem_of_set_iter.
  unfold present, _connections_for_origin, connections_get.
  split.
  - intros [Hp Hn]. split; [done|]. intros [<- Hd]. by apply Hn.
  - intros [Hp Hn]. split; [done|]. intros [Hd Hin]. apply Hn. split; [|done].
    destruct (_connections (pool w) !! o) as [s|] eqn:E; [|set_solver].
    by apply (Hf o s x).
Qed.

End SelectionShape.

(** ** Get or create, and the whole of [request] *)

Section GetOrCreate.
Context `{!ConnectionMethods} `{!UrlUtils} `{!SetIteration}.
Implicit Types (w : World) (c x : AsyncHTTPConnection) (o : Origin).

Lemma get_connection_reuses o w :
  (∃ c, c ∈ _connections_for_origin (pool w) o ∧ reuse_candidate (conn w c)) →
  ∃ c, (_get_connection_from_pool o w).1 = Some c ∧ reuse_candidate (conn w c).
Proof.
  intros (c0 & Hin & Hc).
  destruct (get_connection_shape o w) as (s & (_ & _ & _ & Hr1 & Hr2 & _) & ->).
  simpl in *. destruct (reuse_connection s) as [c|].
  - exists c. split; [done|]. by destruct (Hr1 c eq_refl).
  - exfalso. apply (Hr2 eq_refl c0); [|done]. by apply elem_of_set_iter.
Qed.

(** What selection adds to the trace: the removals of the dropped
    connections, at most one [mark_as_ready], the closes of the dropped
    connections. *)
Lemma get_connection_trace o w :
  ∃ mid,
    (mid = [] ∨ ∃ c, mid = [EvMarkAsReady c]) ∧
    trace (_get_connection_from_pool o w).2 =
      trace w
      ++ removal_events w
           (filter (λ c, dropped_idle (conn w c))
              (set_iter (_connections_for_origin (pool w) o)))
      ++ mid
      ++ (EvConnAclose <$>
            set_iter (list_to_set
              (filter (λ c, dropped_idle (conn w c))
                 (set_iter (_connections_for_origin (pool w) o))))).
Proof.
  destruct (get_connection_shape o w) as (s & (_ & Hcl & _) & ->).
  simpl in Hcl. rewrite Hcl.
  set (dropped := filter _ _).
  assert (NoDup dropped) as Hnd by apply list.NoDup_filter, NoDup_set_iter.
  destruct (reuse_connection s) as [c|]; simpl.
  - exists [EvMarkAsReady c]. split; [eauto|].
    destruct (close_all_pool (set_iter (list_to_set dropped))
      (assign_expires_at c None (mark_as_ready c (remove_all dropped w))))
      as (_ & _ & _ & ->).
    simpl. rewrite remove_all_trace by done. by rewrite <- !app_assoc.
  - exists []. split; [by left|].
    destruct (close_all_pool (set_iter (list_to_set dropped)) (remove_all dropped w))
      as (_ & _ & _ & ->).
    rewrite remove_all_trace by done. by rewrite <- !app_assoc.
Qed.

Lemma get_connection_next_conn_id o w :
  next_conn_id (_get_connection_from_pool o w).2 = next_conn_id w.
Proof.
  destruct (get_connection_shape o w) as (s & _ & ->).
  set (dropped := filter _ _).
  destruct (reuse_connection s) as [c|]; simpl.
  - destruct (close_all_pool (set_iter (connections_to_close s))
      (assign_expires_at c None (mark_as_ready c (remove_all dropped w))))
      as (_ & _ & -> & _).
    simpl. by destruct (remove_all_rest dropped w) as (_ & _ & -> & _).
  - destruct (close_all_pool (set_iter (connections_to_close s)) (remove_all dropped w))
      as (_ & _ & -> & _).
    by destruct (remove_all_rest dropped w) as (_ & _ & -> & _).
Qed.

Lemma present_dict_add c w c' :
  c' ∈ connections_get (dict_add c (_connections (pool w))) (origin c') ↔
  c' = c ∨ present c' w.
Proof.
  rewrite get_dict_add. unfold present.
  destruct (decide (origin c' = origin c)) as [E|E].
  - rewrite elem_of_union, elem_of_singleton. tauto.
  - split; [by right|]. intros [->|?]; done.
Qed.



End GetOrCreate.

(** ** The errors of [connection.request] *)

Section RetryErrors.
Context `{!ConnectionMethods} `{!UrlUtils} `{!SetIteration}.
Implicit Types (w : World) (c x : AsyncHTTPConnection) (o : Origin).


End RetryErrors.

(** ** What every reachable state satisfies *)

Section Preservation.
Context `{!ConnectionMethods} `{!UrlUtils} `{!SetIteration}.
Implicit Types (w : World) (c x : AsyncHTTPConnection) (o : Origin).
Implicit Types (P : AsyncConnectionPool → Prop).

Lemma evolves_preserves P :
  (∀ w w', same_core w w' → P (pool w) → P (pool w')) →
  (∀ c t w, P (pool w) → P (pool (_add_to_pool c t w).2)) →
  (∀ c w, P (pool w) → P (pool (_remove_from_pool c w))) →
  ∀ w w', evolves w w' → P (pool w) → P (pool w').
Proof.
  intros Hcore Hadd Hrem w w'.
  induction 1 as [w w' Hc|c t w|c w|w1 w2 w3 _ IH1 _ IH2]; intros HP; eauto.
Qed.

Lemma run_preserves P :
  (∀ w w', same_core w w' → P (pool w) → P (pool w')) →
  (∀ c t w, P (pool w) → P (pool (_add_to_pool c t w).2)) →
  (∀ c w, P (pool w) → P (pool (_remove_from_pool c w))) →
  (∀ t w, P (pool w) → P (pool (set_pool (set_next_keepalive_check t) w))) →
  ∀ op w, P (pool w) → P (pool (run op w)).
Proof.
  intros Hcore Hadd Hrem Hnext op w HP.
  pose proof (evolves_preserves P Hcore Hadd Hrem) as Hev.
  assert (P (pool (_keepalive_sweep w).2)) as Hsweep.
  { destruct (sweep_evolves w) as [->|(_ & _ & He)]; [done|].
    apply (Hev _ _ He). by apply Hnext. }
  destruct op as [url t script|c t|c|c|s c| | |f t n]; simpl; eauto.
  - rewrite request_world. destruct (bool_decide _); [|done].
    apply (Hev _ _ (request_loop_evolves _ _ _ _)).
    by destruct (_keepalive_expiry (pool w)).
  - apply (Hev _ _ (response_closed_evolves _ _)), HP.
  - apply (Hev _ _ (stream_aclose_evolves _ _ _)), HP.
  - apply (Hev _ _ (aclose_evolves _)), HP.
Qed.

Lemma unlimited_ok_run op w :
  unlimited_ok (pool w) → unlimited_ok (pool (run op w)).
Proof.
  apply (run_preserves unlimited_ok); unfold unlimited_ok.
  - intros w1 w2 (_ & Hc & Hs & _) HP Hmax. unfold config in Hc.
    unfold semaphore_of in *. rewrite Hs.
    replace (_max_connections (pool w2)) with (_max_connections (pool w1))
      in * by congruence.
    by apply HP.
  - intros c t w1 HP Hmax. destruct (add_pool c t w1) as (Hc & _ & ->).
    unfold config in Hc. rewrite HP by congruence.
    by destruct ((_add_to_pool c t w1).1).
  - intros c w1 HP Hmax. destruct (remove_pool c w1) as (Hc & _ & ->).
    unfold config in Hc. rewrite HP by congruence. by destruct (decide _).
  - intros t w1 HP Hmax. by apply HP.
Qed.

Lemma reachable_unlimited_ok w : reachable w → unlimited_ok (pool w).
Proof.
  induction 1 as [w (mc & mk & ke & h2 & ->)|op w _ IH].
  - unfold unlimited_ok, semaphore_of. simpl. by intros ->.
  - by apply unlimited_ok_run.
Qed.

Lemma dict_remove_add c (m : gmap Origin (gset AsyncHTTPConnection)) :
  no_empty_set m → c ∉ connections_get m (origin c) →
  dict_remove c (dict_add c m) = m.
Proof.
  intros Hn Hc. apply map_eq. intros o.
  rewrite lookup_dict_remove, lookup_dict_add.
  destruct (decide (o = origin c)) as [->|]; [|done].
  assert ((connections_get m (origin c) ∪ {[c]}) ∖ {[c]} = connections_get m (origin c))
    as -> by set_solver.
  unfold connections_get in *.
  destruct (m !! origin c) as [s|] eqn:E; simpl.
  - rewrite decide_False; [done|]. by apply (Hn _ _ E).
  - by rewrite decide_True.
Qed.

End Preservation.

(** ** Further properties of the pool *)

Section Extras.
Context `{!ConnectionMethods} `{!UrlUtils} `{!SetIteration}.
Implicit Types (w : World) (c x : AsyncHTTPConnection) (o : Origin).

(** X1. In every reachable state a connection sits in the set of its own
    origin, so never under two origins at once. *)
Theorem connection_filed_under_own_origin w :
  reachable w →
  (∀ o s c, _connections (pool w) !! o = Some s → c ∈ s → origin c = o) ∧
  (∀ o1 o2 s1 s2 c,
     _connections (pool w) !! o1 = Some s1 →
     _connections (pool w) !! o2 = Some s2 →
     c ∈ s1 → c ∈ s2 → o1 = o2).
Proof.
  intros Hr. destruct (reachable_inv w Hr) as (Hf & _).
  split; [exact Hf|].
  intros o1 o2 s1 s2 c Hl1 Hl2 Hc1 Hc2.
  by rewrite <- (Hf _ _ _ Hl1 Hc1), <- (Hf _ _ _ Hl2 Hc2).
Qed.

(** X2. With [max_connections] set, in every reachable state the semaphore
    is the counting one, and its free permits together with the
    connections in the pool are at most [max_connections]: a release never
    takes the semaphore above its initial value. *)
Theorem permits_account_for_connections w n :
  reachable w →
  _max_connections (pool w) = Some n →
  ∃ v, semaphore_of (pool w) = Semaphore v ∧
       size (_get_all_connections (pool w)) + v ≤ n ∧
       ∀ c, c ∈ _get_all_connections (pool w) →
            semaphore_of (pool (_remove_from_pool c w)) = Semaphore (S v) ∧ S v ≤ n.
Proof.
  intros Hr Hmax. destruct (reachable_inv w Hr) as (Hf & _ & Hp).
  unfold permits_ok in Hp. rewrite Hmax in Hp.
  destruct (semaphore_of (pool w)) as [|v] eqn:Es; [done|].
  exists v. split_and!; [done..|].
  intros c Hc. destruct (remove_pool c w) as (_ & _ & ->).
  rewrite decide_True by by apply elem_of_get_all_filed.
  rewrite Es. split; [done|].
  assert (size (_get_all_connections (pool w)) ≠ 0).
  { apply size_non_empty_iff. set_solver. }
  lia.
Qed.

(** X3. Admission and eviction undo each other: in a reachable state,
    adding a connection that is not in the pool and then removing it gives
    back the connections map and the permits of before. *)
Theorem add_then_remove_restores c timeout w :
  reachable w →
  c ∉ connections_get (_connections (pool w)) (origin c) →
  (_add_to_pool c timeout w).1 = Ret tt →
  _connections (pool (_remove_from_pool c (_add_to_pool c timeout w).2))
    = _connections (pool w) ∧
  semaphore_of (pool (_remove_from_pool c (_add_to_pool c timeout w).2))
    = semaphore_of (pool w).
Proof.
  intros Hr Hc Hret. destruct (reachable_inv w Hr) as (_ & Hn & _).
  pose proof (add_connections c timeout w) as Hm. rewrite Hret in Hm.
  destruct (add_pool c timeout w) as (_ & _ & Hs). rewrite Hret in Hs.
  pose proof (add_result c timeout w) as Hres.
  rewrite acquire_result, Hret in Hres.
  assert (present c (_add_to_pool c timeout w).2) as Hp.
  { unfold present. rewrite Hm. apply (present_dict_add c w c). by left. }
  split.
  - rewrite remove_connections, decide_True, Hm by done.
    by apply dict_remove_add.
  - destruct (remove_pool c (_add_to_pool c timeout w).2) as (_ & _ & ->).
    rewrite decide_True, Hs by done.
    destruct (semaphore_of (pool w)) as [|[|v]]; try done.
    by destruct (mjoin _).
Qed.

(** X4. A pool built without [max_connections] never refuses and never
    makes wait: in every reachable state [_add_to_pool] returns, whatever
    the timeout. *)
Theorem unlimited_pool_always_admits c timeout w :
  reachable w →
  _max_connections (pool w) = None →
  (_add_to_pool c timeout w).1 = Ret tt ∧
  c ∈ connections_get (_connections (pool (_add_to_pool c timeout w).2)) (origin c).
Proof.
  intros Hr Hmax.
  pose proof (reachable_unlimited_ok w Hr Hmax) as Hs.
  assert ((_add_to_pool c timeout w).1 = Ret tt) as Hret.
  { by rewrite add_result, acquire_result, Hs. }
  split; [done|].
  rewrite add_connections, Hret. apply (present_dict_add c w c). by left.
Qed.


Lemma removal_events_no_acquire w l :
  Forall (λ e, is_acquire e = false) (removal_events w l).
Proof.
  induction l as [|c l IH]; [constructor|].
  rewrite removal_events_cons. apply Forall_app. split; [|done].
  destruct (decide (present c w)); repeat constructor.
Qed.

(** X7. Reuse takes no permit: when the set of the origin holds a reuse
    candidate, [get_or_create] answers with such a connection without
    calling [acquire] on the semaphore, so it neither waits nor fails with
    [PoolTimeout], however full the pool is. *)
Theorem reuse_needs_no_permit o timeout w :
  (∃ c, c ∈ _connections_for_origin (pool w) o ∧ reuse_candidate (conn w c)) →
  ∃ c, get_or_create o timeout w = (Ret c, (_get_connection_from_pool o w).2) ∧
       reuse_candidate (conn w c) ∧
       ∃ tr, trace (get_or_create o timeout w).2 = trace w ++ tr ∧
             Forall (λ e, is_acquire e = false) tr.
Proof.
  intros Hex. destruct (get_connection_reuses o w Hex) as (c & Hc & Hcand).
  destruct (get_connection_trace o w) as (mid & Hmid & Ht).
  exists c. unfold get_or_create.
  destruct (_get_connection_from_pool o w) as [[c'|] w1]; simpl in *; [|done].
  injection Hc as ->. split_and!; [done..|].
  eexists. split; [exact Ht|].
  rewrite !Forall_app. split_and!.
  - apply removal_events_no_acquire.
  - destruct Hmid as [->|(x & ->)]; repeat constructor.
  - apply Forall_fmap, Forall_forall. by intros x _.
Qed.

(** X8. Selection evicts the idle connections of the origin that the peer
    has dropped, and nothing else: afterwards the pool holds what it held
    except those; each of them was removed from the pool (its permit
    released) before any of them is closed. *)
Theorem selection_evicts_dropped o w :
  reachable w →
  (∀ x, present x (_get_connection_from_pool o w).2 ↔
        present x w ∧ ¬ (origin x = o ∧ dropped_idle (conn w x))) ∧
  ∃ ds ds' mid,
    ds ≡ₚ ds' ∧
    (∀ x, x ∈ ds ↔ x ∈ _connections_for_origin (pool w) o ∧
                   dropped_idle (conn w x)) ∧
    (mid = [] ∨ ∃ c, mid = [EvMarkAsReady c]) ∧
    trace (_get_connection_from_pool o w).2 =
      trace w ++ (ds ≫= λ c, [EvRelease; EvRemove c]) ++ mid
              ++ (EvConnAclose <$> ds').
Proof.
  intros Hr. destruct (reachable_inv w Hr) as (Hf & _).
  split; [intros x; by apply get_connection_present|].
  destruct (get_connection_trace o w) as (mid & Hmid & Ht).
  set (ds := filter (λ c, dropped_idle (conn w c))
               (set_iter (_connections_for_origin (pool w) o))) in *.
  assert (NoDup ds) as Hnd by apply list.NoDup_filter, NoDup_set_iter.
  assert (Hds : ∀ x, x ∈ ds ↔ x ∈ _connections_for_origin (pool w) o ∧
                              dropped_idle (conn w x)).
  { intros x. unfold ds. rewrite list_elem_of_filter, elem_of_set_iter. tauto. }
  exists ds, (set_iter (list_to_set ds)), mid. split_and!; [|done..|].
  - rewrite set_iter_perm. by rewrite elements_list_to_set.
  - rewrite Ht. do 2 f_equal.
    apply removal_events_present. intros x Hx. apply Hds in Hx as [Hin _].
    unfold present, _connections_for_origin, connections_get in *.
    destruct (_connections (pool w) !! o) as [s|] eqn:E; [|set_solver].
    by rewrite (Hf o s x E Hin), E.
Qed.

Lemma set_iter_empty : set_iter ∅ = [].
Proof.
  apply Permutation_nil_r. rewrite set_iter_perm. by rewrite elements_empty.
Qed.

Lemma set_iter_singleton c : set_iter {[c]} = [c].
Proof.
  apply Permutation_singleton_r. rewrite set_iter_perm.
  by rewrite elements_singleton.
Qed.

Lemma present_in_all c w : present c w → c ∈ _get_all_connections (pool w).
Proof.
  unfold present, connections_get. intros Hp. apply elem_of_get_all.
  destruct (_connections (pool w) !! origin c) as [s|] eqn:E; [eauto|set_solver].
Qed.

Lemma response_closed_unfold c w :
  _response_closed c w =
    if decide (state (conn w c) = CLOSED) then _remove_from_pool c w
    else if decide (state (conn w c) = IDLE) then
      if decide (over_keepalive w) then conn_aclose c (_remove_from_pool c w)
      else match _keepalive_expiry (pool w) with
           | Some e => assign_expires_at c (Some (clock w + e)%float) w
           | None => w
           end
    else w.
Proof.
  unfold _response_closed.
  destruct (state (conn w c)) eqn:Est; simpl; try done.
  destruct (decide (over_keepalive w)) as [(k & Hk & Hlt)|Hno].
  - rewrite Hk, bool_decide_eq_true_2 by done. done.
  - assert (match _max_keepalive (pool w) with
            | Some k => bool_decide (k < Z.of_nat (size (_get_all_connections (pool w))))%Z
            | None => false
            end = false) as ->.
    { destruct (_max_keepalive (pool w)) as [k|] eqn:Hk; [|done].
      apply bool_decide_eq_false_2. intros Hlt. apply Hno. by exists k. }
    by destruct (_keepalive_expiry (pool w)).
Qed.

(** X9. [_response_closed] takes the connection out of the pool in two
    cases only, when it is CLOSED and when it is IDLE with more connections
    in the pool than [max_keepalive]; it closes the connection in the
    second case only, and after the removal.  No other connection leaves
    the pool. *)
Theorem response_closed_removal c w :
  (∀ x, present x (_response_closed c w) ↔
        present x w ∧ ¬ (x = c ∧ leaves_pool c w)) ∧
  trace (_response_closed c w) =
    trace w
    ++ (if decide (leaves_pool c w) then removal_events w [c] else [])
    ++ (if decide (gets_closed c w) then [EvConnAclose c] else []).
Proof.
  rewrite response_closed_unfold. unfold leaves_pool, gets_closed.
  assert (Hrem : ∀ x, present x (_remove_from_pool c w) ↔ present x w ∧ x ≠ c).
  { intros x. destruct (decide (x = c)) as [->|Hne].
    - pose proof (remove_not_present c w). tauto.
    - rewrite present_remove_ne by done. tauto. }
  assert (Htr : trace (_remove_from_pool c w) = trace w ++ removal_events w [c]).
  { destruct (remove_rest c w) as (_ & _ & _ & ->).
    unfold removal_events. simpl. by rewrite app_nil_r. }
  destruct (decide (state (conn w c) = CLOSED)) as [Ec|Ec].
  - rewrite decide_True by by left.
    rewrite decide_False by (rewrite Ec; by intros [? _]).
    rewrite app_nil_r. split; [|done]. intros x. rewrite Hrem. intuition.
  - destruct (decide (state (conn w c) = IDLE)) as [Ei|Ei].
    + destruct (decide (over_keepalive w)) as [Ho|Ho].
      * rewrite decide_True by by right. rewrite decide_True by done.
        split.
        -- intros x. change (present x (conn_aclose c (_remove_from_pool c w)))
             with (present x (_remove_from_pool c w)).
           rewrite Hrem. intuition.
        -- simpl. rewrite Htr. by rewrite <- app_assoc.
      * rewrite decide_False by tauto. rewrite decide_False by tauto.
        rewrite !app_nil_r.
        destruct (_keepalive_expiry (pool w)); (split; [|done]); intros x;
          change (present x (assign_expires_at c _ w)) with (present x w); tauto.
    + rewrite decide_False by tauto. rewrite decide_False by tauto.
      rewrite !app_nil_r. split; [|done]. intros x. tauto.
Qed.

Lemma sweep_present w x :
  is_Some (_keepalive_expiry (pool w)) → sweep_due w = true →
  present x (_keepalive_sweep w).2 ↔
  present x w ∧ expired (clock w) (conn w x) ≠ true.
Proof.
  intros He Hd. rewrite sweep_runs by done. simpl.
  set (ex := filter _ _). set (w1 := set_pool _ w).
  change (present x (close_all (set_iter (list_to_set ex)) (remove_all ex w1)))
    with (x ∈ connections_get
            (_connections (pool (close_all (set_iter (list_to_set ex))
                                   (remove_all ex w1)))) (origin x)).
  destruct (close_all_pool (set_iter (list_to_set ex)) (remove_all ex w1)) as (-> & _).
  change (x ∈ connections_get (_connections (pool (remove_all ex w1))) (origin x))
    with (present x (remove_all ex w1)).
  rewrite remove_all_present. unfold ex.
  rewrite list_elem_of_filter, elem_of_set_iter.
  change (present x w1) with (present x w).
  split; [|tauto]. intros [Hp Hn]. split; [done|]. intros Hex. apply Hn.
  split; [done|]. by apply present_in_all.
Qed.

(** X10. The connections that a scanning sweep closes are the expired
    ones it has removed, each closed after all the removals; the sweep
    leaves the attributes of every other connection as they were. *)
Theorem keepalive_sweep_closes_removed w :
  reachable w →
  is_Some (_keepalive_expiry (pool w)) →
  sweep_due w = true →
  ∃ ds ds',
    ds ≡ₚ ds' ∧
    (∀ x, x ∈ ds ↔ x ∈ _get_all_connections (pool w) ∧
                   expired (clock w) (conn w x) = true) ∧
    trace (_keepalive_sweep w).2 =
      trace w ++ (ds ≫= λ c, [EvRelease; EvRemove c]) ++ (EvConnAclose <$> ds') ∧
    (∀ x, x ∉ ds → conn (_keepalive_sweep w).2 x = conn w x).
Proof.
  intros Hr He Hd. destruct (reachable_inv w Hr) as (Hf & _).
  rewrite sweep_runs by done. simpl.
  set (ex := filter (λ c, expired (clock w) (conn w c) = true)
               (set_iter (_get_all_connections (pool w)))).
  set (w1 := set_pool (set_next_keepalive_check (clock w + 1)%float) w).
  assert (NoDup ex) as Hnd by apply list.NoDup_filter, NoDup_set_iter.
  assert (Hex : ∀ x, x ∈ ex ↔ x ∈ _get_all_connections (pool w) ∧
                              expired (clock w) (conn w x) = true).
  { intros x. unfold ex. rewrite list_elem_of_filter, elem_of_set_iter. tauto. }
  exists ex, (set_iter (list_to_set ex)). split_and!; [|done| |].
  - rewrite set_iter_perm. by rewrite elements_list_to_set.
  - destruct (close_all_pool (set_iter (list_to_set ex)) (remove_all ex w1))
      as (_ & _ & _ & ->).
    rewrite remove_all_trace by done. rewrite <- app_assoc. do 2 f_equal.
    apply removal_events_present. intros x Hx. apply Hex in Hx as [Hin _].
    change (present x w1) with (present x w). by apply elem_of_get_all_filed.
  - intros x Hx. rewrite close_all_conn.
    + by destruct (remove_all_rest ex w1) as (-> & _).
    + by rewrite elem_of_set_iter, elem_of_list_to_set.
Qed.

(** X11. An idle connection that [_response_closed] keeps, with
    [keepalive_expiry] set, expires at the time of the close plus
    [keepalive_expiry]: if nothing else touches it, a sweep that scans at
    time [t] leaves it in the pool exactly when [t > expires_at] is false. *)
Theorem kept_connection_expires c w e t n :
  c ∈ connections_get (_connections (pool w)) (origin c) →
  state (conn w c) = IDLE →
  ¬ over_keepalive w →
  _keepalive_expiry (pool w) = Some e →
  sweep_due (run (OpEnv (λ st, st) t n) (_response_closed c w)) = true →
  expires_at (conn (_response_closed c w) c) = Some (clock w + e)%float ∧
  _connections (pool (_response_closed c w)) = _connections (pool w) ∧
  (c ∈ connections_get
         (_connections
            (pool (_keepalive_sweep
                     (run (OpEnv (λ st, st) t n) (_response_closed c w))).2))
         (origin c) ↔
   PrimFloat.ltb (clock w + e)%float t = false).
Proof.
  intros Hp Hst Hno He Hd. revert Hd.
  rewrite response_closed_unfold, Hst.
  rewrite decide_False by done. rewrite decide_True by done.
  rewrite decide_False by done. rewrite He. intros Hd.
  split_and!.
  - simpl. by rewrite fn_lookup_insert.
  - done.
  - change (?x ∈ connections_get (_connections (pool ?w')) (origin ?x))
      with (present x w').
    rewrite sweep_present; [|simpl; by rewrite He|done].
    simpl. unfold expired. simpl. rewrite fn_lookup_insert. simpl. rewrite Hst.
    change (present c _) with (present c w).
    destruct (PrimFloat.ltb (clock w + e) t); split; try done; tauto.
Qed.

Lemma aclose_connections w :
  pool_inv (pool w) → _connections (pool (aclose w)) = ∅.
Proof.
  intros Hinv.
  pose proof (evolves_inv _ _ (aclose_evolves w) Hinv) as (Hf' & Hn' & _).
  revert Hf' Hn'. unfold aclose. cbv zeta.
  set (cs := set_iter (_get_all_connections (pool w))).
  change (foldl (λ w0 c, _remove_from_pool c w0) w cs) with (remove_all cs w).
  destruct (close_all_pool cs (remove_all cs w)) as (-> & _).
  intros Hf' Hn'. apply map_eq. intros o. rewrite lookup_empty.
  destruct (_connections (pool (remove_all cs w)) !! o) as [s|] eqn:E; [|done].
  exfalso. destruct (set_choose_L s (Hn' _ _ E)) as [x Hx].
  assert (present x (remove_all cs w)) as Hp.
  { unfold present, connections_get. rewrite (Hf' _ _ _ E Hx), E. done. }
  apply remove_all_present in Hp as [Hp Hnot]. apply Hnot.
  unfold cs. rewrite elem_of_set_iter. by apply present_in_all.
Qed.

(** X12. Shutting down twice is shutting down once: in a reachable state a
    second [aclose()] finds the pool empty, removes and closes nothing, and
    leaves the state as the first one left it. *)
Theorem aclose_twice w :
  reachable w → aclose (aclose w) = aclose w.
Proof.
  intros Hr. pose proof (aclose_connections w (reachable_inv w Hr)) as Hm.
  unfold aclose at 1. cbv zeta.
  rewrite (get_all_empty _ Hm), set_iter_empty. done.
Qed.

(** X13. [_get_all_connections] is the union of the sets of the map: a
    connection is in it exactly when it is in the set of some origin, which
    in a reachable state is its own origin; and there its size is the sum
    of the sizes of the sets. *)
Theorem get_all_connections_union w :
  reachable w →
  (∀ c, c ∈ _get_all_connections (pool w) ↔
        ∃ o, c ∈ _connections_for_origin (pool w) o) ∧
  (∀ c, c ∈ _get_all_connections (pool w) ↔
        c ∈ _connections_for_origin (pool w) (origin c)) ∧
  size (_get_all_connections (pool w)) = total_connections (_connections (pool w)).
Proof.
  intros Hr. destruct (reachable_inv w Hr) as (Hf & _).
  split_and!.
  - intros c. rewrite elem_of_get_all.
    unfold _connections_for_origin, connections_get. split.
    + intros (o & s & Hl & Hin). exists o. by rewrite Hl.
    + intros (o & Hin).
      destruct (_connections (pool w) !! o) as [s|] eqn:E; [eauto|set_solver].
  - intros c. by apply elem_of_get_all_filed.
  - symmetry. by apply total_connections_size.
Qed.

Lemma get_connection_empty o w :
  _connections_for_origin (pool w) o = ∅ →
  _get_connection_from_pool o w = (None, w).
Proof.
  intros HS. unfold _get_connection_from_pool.
  rewrite HS, set_iter_empty. simpl. rewrite set_iter_empty.
  by rewrite andb_false_r.
Qed.

Lemma get_connection_single_pending o w c :
  _connections_for_origin (pool w) o = {[c]} →
  conn w c = new_connection_attrs →
  _http2 (pool w) = true →
  _get_connection_from_pool o w = (Some c, w).
Proof.
  intros HS Hc Hh2. unfold _get_connection_from_pool.
  rewrite HS, set_iter_singleton. simpl. rewrite Hc. simpl.
  rewrite Hh2. simpl. by rewrite set_iter_empty.
Qed.

Lemma get_or_create_dials o timeout w :
  _connections_for_origin (pool w) o = ∅ →
  get_or_create o timeout w =
    match _add_to_pool {| conn_id := next_conn_id w; origin := o |} timeout
            {| pool := pool w;
               conn := <[{| conn_id := next_conn_id w; origin := o |}
                         := new_connection_attrs]> (conn w);
               clock := clock w;
               next_conn_id := Pos.succ (next_conn_id w);
               trace := trace w |} with
    | (Ret _, w') => (Ret {| conn_id := next_conn_id w; origin := o |}, w')
    | (Raise e, w') => (Raise e, w')
    | (Hang, w') => (Hang, w')
    end.
Proof.
  intros HS. unfold get_or_create. by rewrite (get_connection_empty o w HS).
Qed.

(** X14. With HTTP/2 enabled, the first request to an origin dials a
    connection, and the next one to the same origin, coming while that
    connection is still PENDING, is given the same connection: no second
    connection is made and no permit is asked for. *)
Theorem pending_connection_is_shared o t1 t2 w c :
  _http2 (pool w) = true →
  _connections_for_origin (pool w) o = ∅ →
  (get_or_create o t1 w).1 = Ret c →
  _connections_for_origin (pool (get_or_create o t1 w).2) o = {[c]} ∧
  get_or_create o t2 (get_or_create o t1 w).2 = (Ret c, (get_or_create o t1 w).2).
Proof.
  intros Hh2 HS. rewrite (get_or_create_dials o t1 w HS).
  set (c0 := {| conn_id := next_conn_id w; origin := o |}).
  set (w2 := {| pool := pool w; conn := _; clock := _; next_conn_id := _; trace := _ |}).
  pose proof (add_connections c0 t1 w2) as Hm.
  destruct (add_pool c0 t1 w2) as (Hcfg & _).
  destruct (add_rest c0 t1 w2) as (Hst & _).
  destruct (_add_to_pool c0 t1 w2) as [[[]|e|] w3]; simpl in *; try done.
  intros [= <-].
  assert (_connections_for_origin (pool w3) o = {[c0]}) as HS3.
  { unfold _connections_for_origin in *. rewrite Hm, get_dict_add.
    rewrite decide_True by done. rewrite HS. set_solver. }
  split; [done|]. unfold get_or_create.
  rewrite (get_connection_single_pending o w3 c0); [done|done| |].
  - rewrite Hst. unfold w2. simpl. by rewrite fn_lookup_insert.
  - unfold config in Hcfg. congruence.
Qed.

Lemma get_connection_marks o w c :
  (_get_connection_from_pool o w).1 = Some c →
  reuse_candidate (conn w c) →
  conn (_get_connection_from_pool o w).2 c =
    set_expires_at None (mark_as_ready_attrs (conn w c)).
Proof.
  destruct (get_connection_shape o w)
    as (s & (_ & Hcl & _ & Hr1 & Hr2 & Hp1 & _) & ->).
  simpl in *. set (dropped := filter _ _) in *.
  destruct (reuse_connection s) as [c'|]; simpl.
  - intros [= <-] Hc. rewrite close_all_conn.
    + simpl. rewrite !fn_lookup_insert.
      by destruct (remove_all_rest dropped w) as (-> & _).
    + rewrite elem_of_set_iter, Hcl, elem_of_list_to_set. unfold dropped.
      rewrite list_elem_of_filter. intros [Hd _].
      by apply (reuse_candidate_not_dropped _ Hc).
  - destruct (_ && _ && _); [|done]. intros Hp Hc. exfalso.
    destruct (Hp1 c Hp) as [Hin _]. by apply (Hr2 eq_refl c Hin).
Qed.

(** X15. An idle connection handed out for reuse is reserved: provided
    [mark_as_ready()] takes an IDLE connection to READY, a second selection
    for the origin, made before the connection changes state again, does
    not hand it out. *)
Theorem selected_idle_connection_is_reserved o w c :
  (_get_connection_from_pool o w).1 = Some c →
  state (conn w c) = IDLE →
  state (mark_as_ready_attrs (conn w c)) = READY →
  state (conn (_get_connection_from_pool o w).2 c) = READY ∧
  (_get_connection_from_pool o (_get_connection_from_pool o w).2).1 ≠ Some c.
Proof.
  intros Hsel Hidle Hready.
  destruct (get_connection_result o w c Hsel) as (_ & _ & [Hc|[Hp _]]); [|congruence].
  pose proof (get_connection_marks o w c Hsel Hc) as Hattrs.
  assert (state (conn (_get_connection_from_pool o w).2 c) = READY) as Hst.
  { by rewrite Hattrs. }
  split; [done|]. intros Hsel2.
  destruct (get_connection_result o _ c Hsel2) as (_ & _ & [[[E _]|[E _]]|[E _]]);
    congruence.
Qed.

(** X18. Closing the stream of a response whose connection the inner
    close has left CLOSED takes that connection out of the pool, releasing
    its permit if it was there, and no other connection; the outcome of
    the inner close is the outcome of the close. *)
Theorem closed_connection_leaves_pool_on_stream_close s c w r st :
  stream_aclose s (conn w) = (r, st) →
  r ≠ Hang →
  state (st c) = CLOSED →
  (ResponseByteStream_aclose (wrap_stream s c) w).1 = r ∧
  ¬ present c (ResponseByteStream_aclose (wrap_stream s c) w).2 ∧
  (∀ x, x ≠ c →
        present x (ResponseByteStream_aclose (wrap_stream s c) w).2 ↔ present x w) ∧
  semaphore_of (pool (ResponseByteStream_aclose (wrap_stream s c) w).2) =
    if decide (present c w) then
      match semaphore_of (pool w) with
      | NullSemaphore => NullSemaphore
      | Semaphore v => Semaphore (S v)
      end
    else semaphore_of (pool w).
Proof.
  intros Hs Hr Hst. unfold ResponseByteStream_aclose. simpl. rewrite Hs.
  set (w1 := log (EvCallback c) _).
  assert (_response_closed c w1 = _remove_from_pool c w1) as Hrc.
  { rewrite response_closed_unfold. by rewrite decide_True. }
  assert ((let (o, w0) := (Ret (), _response_closed c w1) in
           match o with Ret _ => (r, w0) | _ => (o, w0) end)
          = (r, _remove_from_pool c w1)) as Heq by by rewrite Hrc.
  assert (match r with
          | Hang => (Hang, set_conn (λ _, st) (log (EvStreamAclose (stream_id s)) w))
          | _ => let (o, w0) := (Ret (), _response_closed c w1) in
                 match o with Ret _ => (r, w0) | _ => (o, w0) end
          end = (r, _remove_from_pool c w1)) as ->.
  { by destruct r. }
  simpl. split_and!.
  - done.
  - apply remove_not_present.
  - intros x Hne. by rewrite present_remove_ne.
  - destruct (remove_pool c w1) as (_ & _ & ->). done.
Qed.

End Extras.

(** ** Introspection *)

Section Introspection.
Context `{!InfoMethods} `{!DictIteration} `{!SetIteration}.
Context `{!ConnectionMethods} `{!UrlUtils}.
Implicit Types (w : World) (stats : gmap string (list string)).
Implicit Types (items : list (Origin * gset AsyncHTTPConnection)).

Lemma info_foldl w items :
  (∀ u l, foldl (info_step w) ∅ items !! u = Some l →
          ∃ item, item ∈ items ∧ origin_to_url_string item.1 = u ∧
                  l = (λ c, info c (conn w c)) <$> set_iter item.2) ∧
  (∀ u, foldl (info_step w) ∅ items !! u = None ↔
        ∀ item, item ∈ items → origin_to_url_string item.1 ≠ u).
Proof.
  induction items as [|item items [IH1 IH2]] using rev_ind.
  - simpl. split.
    + intros u l Hl. by rewrite lookup_empty in Hl.
    + intros u. rewrite lookup_empty. split; [|done].
      intros _ item Hin. by apply elem_of_nil in Hin.
  - rewrite foldl_app. simpl. unfold info_step at 1 3. split.
    + intros u l. rewrite lookup_insert.
      destruct (decide (origin_to_url_string item.1 = u)) as [E|E].
      * intros [= <-]. exists item. split; [set_solver|done].
      * intros Hl. destruct (IH1 u l Hl) as (it & Hin & ? & ?).
        exists it. split; [set_solver|done].
    + intros u. rewrite lookup_insert.
      destruct (decide (origin_to_url_string item.1 = u)) as [E|E].
      * split; [done|]. intros Hall. exfalso. apply (Hall item); [set_solver|done].
      * rewrite IH2. split.
        -- intros Hall it Hin. apply elem_of_app in Hin as [Hin|Hin]; [by apply Hall|].
           by apply list_elem_of_singleton in Hin as ->.
        -- intros Hall it Hin. apply Hall. set_solver.
Qed.

Lemma elem_of_dict_items (m : gmap Origin (gset AsyncHTTPConnection)) o s :
  (o, s) ∈ dict_items m ↔ m !! o = Some s.
Proof. by rewrite dict_items_perm, elem_of_map_to_list. Qed.

(** X16. [get_connection_info] lists a URL exactly when some origin of
    the connections map has that URL string, and what it lists under a URL
    are the summaries of the connections of one such origin, one for each
    connection; in a reachable state no URL is listed with an empty list. *)
Theorem get_connection_info_entries w :
  reachable w →
  (∀ u l, get_connection_info w !! u = Some l →
          ∃ o s, _connections (pool w) !! o = Some s ∧
                 origin_to_url_string o = u ∧
                 l = (λ c, info c (conn w c)) <$> set_iter s ∧
                 length l = size s ∧ l ≠ []) ∧
  (∀ u, is_Some (get_connection_info w !! u) ↔
        ∃ o, is_Some (_connections (pool w) !! o) ∧ origin_to_url_string o = u).
Proof.
  intros Hr. destruct (reachable_inv w Hr) as (_ & Hn & _).
  unfold get_connection_info.
  destruct (info_foldl w (dict_items (_connections (pool w)))) as [Hsome Hnone].
  split.
  - intros u l Hl. destruct (Hsome u l Hl) as ([o s] & Hin & Hu & ->).
    apply elem_of_dict_items in Hin. simpl in *.
    exists o, s. split_and!; try done.
    + rewrite length_fmap, (set_iter_perm s). done.
    + intros Hnil. apply fmap_nil_inv in Hnil.
      apply (Hn o s Hin). apply leibniz_equiv, elements_empty_inv.
      pose proof (set_iter_perm s) as Hperm. rewrite Hnil in Hperm.
      symmetry in Hperm. by apply Permutation_nil_r in Hperm.
  - intros u. split.
    + intros [l Hl]. destruct (Hsome u l Hl) as ([o s] & Hin & Hu & _).
      apply elem_of_dict_items in Hin. exists o. by rewrite Hin.
    + intros (o & [s Hs] & Hu).
      destruct (foldl _ _ _ !! u) as [l|] eqn:E; [done|].
      exfalso. apply (proj1 (Hnone u) E (o, s)); [|done].
      by apply elem_of_dict_items.
Qed.

End Introspection.
(** ** The model at work *)

Section Examples.
Local Existing Instance elements_iteration.
Local Existing Instance spec_connection_methods.
Local Existing Instance default_url_utils.

Lemma reachable_world0 : reachable world0.
Proof. apply reachable_initial. by eexists _, _, _, _. Qed.

Lemma reachable_from_world0 ops : reachable (run_ops ops world0).
Proof. apply reachable_run_ops, reachable_world0. Qed.

Example two_in_pool :
  elements (connections_get (_connections (pool (run_ops ops_two world0)))
              example_origin) = [conn1; conn2] ∧
  semaphore_of (pool (run_ops ops_two world0)) = Semaphore 0.
Proof. split; vm_compute; reflexivity. Qed.

Example third_refused :
  (_add_to_pool conn3 (Some {[ "pool"%string := Some 1%float ]})
     (run_ops ops_two world0)).1 = Raise PoolTimeout ∧
  elements (_get_all_connections (pool (run_ops ops_three world0)))
    = [conn1; conn2].
Proof. split; vm_compute; reflexivity. Qed.

Example sweep_at_5 :
  elements (_get_all_connections (pool (_keepalive_sweep (run_ops ops_idle world0)).2))
    = [conn2] ∧
  trace (_keepalive_sweep (run_ops ops_idle world0)).2 =
    trace (run_ops ops_idle world0) ++ [EvRelease; EvRemove conn1; EvConnAclose conn1].
Proof. split; vm_compute; reflexivity. Qed.

Example select_idle :
  (_get_connection_from_pool example_origin (run_ops ops_idle_pending world0)).1
    = Some conn1 ∧
  state (conn (_get_connection_from_pool example_origin
                 (run_ops ops_idle_pending world0)).2 conn1) = READY.
Proof. split; vm_compute; reflexivity. Qed.

Example select_pending :
  (_get_connection_from_pool example_origin (run_ops ops_two world0)).1
    = Some conn2.
Proof. vm_compute; reflexivity. Qed.

(** C2 on a pool of at most two connections that was asked for a third. *)
Lemma total_connections_bounded_witness :
  total_connections (_connections (pool (run_ops ops_three world0))) ≤ 2 ∧
  size (_get_all_connections (pool (run_ops ops_three world0))) ≤ 2.
Proof.
  apply (total_connections_bounded (run_ops ops_three world0) 2).
  - apply reachable_from_world0.
  - vm_compute; reflexivity.
Defined.

(** C10 on the pool holding two connections of one origin. *)
Lemma origin_sets_nonempty_witness :
  reachable (run_ops ops_two world0) ∧
  ∀ o s, _connections (pool (run_ops ops_two world0)) !! o = Some s → s ≠ ∅.
Proof.
  split; [apply reachable_from_world0|].
  exact (proj1 (origin_sets_nonempty (run_ops ops_two world0)
                  (reachable_from_world0 ops_two))).
Defined.

(** C7 on the pool holding two connections. *)
Lemma aclose_empties_pool_witness :
  _connections (pool (aclose (run_ops ops_two world0))) = ∅ ∧
  ∃ cs, cs ≡ₚ elements (_get_all_connections (pool (run_ops ops_two world0))) ∧
        trace (aclose (run_ops ops_two world0)) =
          trace (run_ops ops_two world0)
            ++ (cs ≫= λ c, [EvRelease; EvRemove c]) ++ (EvConnAclose <$> cs).
Proof.
  apply (aclose_empties_pool (run_ops ops_two world0)).
  apply reachable_from_world0.
Defined.

(** C1 on an origin with an idle and a pending connection. *)
Lemma get_connection_from_pool_selects_witness :
  ∃ c, (_get_connection_from_pool example_origin
          (run_ops ops_idle_pending world0)).1 = Some c ∧
       c ∈ _connections_for_origin (pool (run_ops ops_idle_pending world0))
             example_origin ∧
       reuse_candidate (conn (run_ops ops_idle_pending world0) c) ∧
       (∃ t1 t2, trace (_get_connection_from_pool example_origin
                          (run_ops ops_idle_pending world0)).2 =
                   trace (run_ops ops_idle_pending world0)
                     ++ t1 ++ EvMarkAsReady c :: t2) ∧
       conn (_get_connection_from_pool example_origin
               (run_ops ops_idle_pending world0)).2 c =
         set_expires_at None
           (mark_as_ready_attrs (conn (run_ops ops_idle_pending world0) c)) ∧
       expires_at (conn (_get_connection_from_pool example_origin
                           (run_ops ops_idle_pending world0)).2 c) = None.
Proof.
  refine (proj1 (get_connection_from_pool_selects example_origin
                   (run_ops ops_idle_pending world0)) _).
  exists conn1. split.
  - apply elem_of_elements.
    replace (elements (_connections_for_origin
               (pool (run_ops ops_idle_pending world0)) example_origin))
      with [conn1; conn2] by (vm_compute; reflexivity).
    apply list_elem_of_here.
  - left. split; vm_compute; reflexivity.
Defined.

(** C5 at time 5, for the connection that expires at 7. *)
Lemma keepalive_sweep_removes_expired_witness :
  conn2 ∈ _get_all_connections (pool (_keepalive_sweep (run_ops ops_idle world0)).2) ↔
  conn2 ∈ _get_all_connections (pool (run_ops ops_idle world0)) ∧
  ¬ (state (conn (run_ops ops_idle world0) conn2) = IDLE ∧
     ∃ e, expires_at (conn (run_ops ops_idle world0) conn2) = Some e ∧
          PrimFloat.ltb e (clock (run_ops ops_idle world0)) = true).
Proof.
  refine (proj1 (keepalive_sweep_removes_expired (run_ops ops_idle world0)
                   (reachable_from_world0 ops_idle) _ _) conn2).
  - exists 1%float. vm_compute; reflexivity.
  - vm_compute; reflexivity.
Defined.

(** C5 as first written (every IDLE connection left has [expires_at > now])
    fails at the boundary: the response is closed at time 4 with a
    keep-alive of one second, the sweep scans at time 5, and the
    connection, whose [expires_at] is 5, stays in the pool, IDLE, with an
    [expires_at] that is not greater than [now]. *)
Lemma keepalive_sweep_keeps_connection_expiring_now :
  sweep_due (run_ops ops_expiring_now world0) = true ∧
  clock (run_ops ops_expiring_now world0) = 5%float ∧
  elements (_get_all_connections
              (pool (_keepalive_sweep (run_ops ops_expiring_now world0)).2))
    = [conn1] ∧
  state (conn (_keepalive_sweep (run_ops ops_expiring_now world0)).2 conn1) = IDLE ∧
  expires_at (conn (_keepalive_sweep (run_ops ops_expiring_now world0)).2 conn1)
    = Some 5%float ∧
  PrimFloat.ltb (clock (run_ops ops_expiring_now world0)) 5%float = false.
Proof. split_and!; vm_compute; reflexivity. Defined.

(** C9: a scan at time 5, then a sweep at 5.5. *)
Lemma keepalive_sweep_rate_limit_witness :
  _next_keepalive_check (pool (_keepalive_sweep (run_ops ops_idle world0)).2)
    = (clock (run_ops ops_idle world0) + 1)%float ∧
  (_keepalive_sweep
     (run_ops ops_after_scan (_keepalive_sweep (run_ops ops_idle world0)).2)).2
    = run_ops ops_after_scan (_keepalive_sweep (run_ops ops_idle world0)).2.
Proof.
  destruct (proj2 (keepalive_sweep_rate_limit (run_ops ops_idle world0) ops_after_scan))
    as [H1 H2].
  - exists 1%float. vm_compute; reflexivity.
  - vm_compute; reflexivity.
  - split; [exact H1|]. apply H2.
    + cbn [no_scan ops_after_scan]. split_and!; [vm_compute; reflexivity..|exact I].
    + vm_compute; reflexivity.
Defined.



Example refused_connection_leaves_pool :
  elements (_get_all_connections
              (pool (request_loop example_origin None [reply_refused] world0).2))
    = [] ∧
  semaphore_of (pool (request_loop example_origin None [reply_refused] world0).2)
    = Semaphore 2.
Proof. split; vm_compute; reflexivity. Qed.

(** C6 with an inner stream whose close raises. *)
Lemma response_stream_aclose_calls_back_witness :
  ResponseByteStream_aclose (wrap_stream failing_stream conn1)
      (run_ops ops_idle world0) =
    (Raise (OtherException "ReadError"),
     _response_closed conn1
       (log (EvCallback conn1)
          (set_conn (λ _, conn (run_ops ops_idle world0))
             (log (EvStreamAclose (stream_id failing_stream))
                (run_ops ops_idle world0))))) ∧
  ∃ t, trace (ResponseByteStream_aclose (wrap_stream failing_stream conn1)
                (run_ops ops_idle world0)).2 =
         trace (run_ops ops_idle world0)
           ++ EvStreamAclose (stream_id failing_stream) :: EvCallback conn1 :: t ∧
       length (filter (λ e, is_callback_of conn1 e = true)
                 (EvStreamAclose (stream_id failing_stream) :: EvCallback conn1 :: t))
         = 1.
Proof.
  refine (response_stream_aclose_calls_back failing_stream conn1
            (run_ops ops_idle world0) (Raise (OtherException "ReadError"))
            (conn (run_ops ops_idle world0)) _ _).
  - reflexivity.
  - discriminate.
Defined.

(** C4 on a full pool, with a pool timeout of one second. *)
Lemma add_to_pool_admission_witness :
  (_add_to_pool conn3 (Some {[ "pool"%string := Some 1%float ]})
     (run_ops ops_two world0)).1 = Raise PoolTimeout ∧
  _connections (pool (_add_to_pool conn3 (Some {[ "pool"%string := Some 1%float ]})
                        (run_ops ops_two world0)).2)
    = _connections (pool (run_ops ops_two world0)).
Proof.
  pose proof (add_to_pool_admission conn3 (Some {[ "pool"%string := Some 1%float ]})
                (run_ops ops_two world0)) as H.
  replace (acquire (mjoin (default ∅ (Some {[ "pool"%string := Some 1%float ]})
                     !! "pool"%string)) (run_ops ops_two world0)).1
    with (@Raise unit PoolTimeout) in H by (vm_compute; reflexivity).
  destruct H as (_ & H1 & H2 & _). by split.
Defined.

(** C8 on the pool holding two connections. *)
Lemma remove_from_pool_idempotent_witness :
  _remove_from_pool conn1 (_remove_from_pool conn1 (run_ops ops_two world0))
    = _remove_from_pool conn1 (run_ops ops_two world0).
Proof.
  exact (proj1 (remove_from_pool_idempotent conn1 (run_ops ops_two world0))).
Defined.

Example removed_once :
  elements (_get_all_connections
              (pool (_remove_from_pool conn1 (run_ops ops_two world0)))) = [conn2] ∧
  semaphore_of (pool (_remove_from_pool conn1 (run_ops ops_two world0)))
    = Semaphore 1.
Proof. split; vm_compute; reflexivity. Qed.

End Examples.

(** ** The further properties at work *)

Section MoreExamples.
Local Existing Instance elements_iteration.
Local Existing Instance spec_connection_methods.
Local Existing Instance default_url_utils.
Local Existing Instance default_info_methods.
Local Existing Instance map_to_list_iteration.

Lemma reachable_world_unlimited ops : reachable (run_ops ops world_unlimited).
Proof.
  apply reachable_run_ops, reachable_initial. by eexists _, _, _, _.
Qed.

(** X1 on the pool holding two connections. *)
Lemma connection_filed_under_own_origin_witness :
  reachable (run_ops ops_two world0) ∧
  ∀ o s c, _connections (pool (run_ops ops_two world0)) !! o = Some s →
           c ∈ s → origin c = o.
Proof.
  split; [apply reachable_from_world0|].
  exact (proj1 (connection_filed_under_own_origin (run_ops ops_two world0)
                  (reachable_from_world0 ops_two))).
Defined.

(** X2 on the full pool. *)
Lemma permits_account_for_connections_witness :
  ∃ v, semaphore_of (pool (run_ops ops_two world0)) = Semaphore v ∧
       size (_get_all_connections (pool (run_ops ops_two world0))) + v ≤ 2 ∧
       ∀ c, c ∈ _get_all_connections (pool (run_ops ops_two world0)) →
            semaphore_of (pool (_remove_from_pool c (run_ops ops_two world0)))
              = Semaphore (S v) ∧ S v ≤ 2.
Proof.
  refine (permits_account_for_connections (run_ops ops_two world0) 2
            (reachable_from_world0 ops_two) _).
  vm_compute; reflexivity.
Defined.

(** X3: a second connection comes and goes. *)
Lemma add_then_remove_restores_witness :
  _connections (pool (_remove_from_pool conn2
                        (_add_to_pool conn2 None (run_ops ops_one world0)).2))
    = _connections (pool (run_ops ops_one world0)) ∧
  semaphore_of (pool (_remove_from_pool conn2
                        (_add_to_pool conn2 None (run_ops ops_one world0)).2))
    = semaphore_of (pool (run_ops ops_one world0)).
Proof.
  refine (add_then_remove_restores conn2 None (run_ops ops_one world0)
            (reachable_from_world0 ops_one) _ _).
  - rewrite <- elem_of_elements.
    replace (elements (connections_get (_connections (pool (run_ops ops_one world0)))
                         (origin conn2)))
      with [conn1] by (vm_compute; reflexivity).
    intros Hin. apply list_elem_of_singleton in Hin. discriminate.
  - vm_compute; reflexivity.
Defined.

(** X4: a third connection with a pool timeout, and no bound. *)
Lemma unlimited_pool_always_admits_witness :
  (_add_to_pool conn3 pool_timeout_1 (run_ops ops_two world_unlimited)).1 = Ret tt ∧
  conn3 ∈ connections_get
            (_connections (pool (_add_to_pool conn3 pool_timeout_1
                                   (run_ops ops_two world_unlimited)).2))
            (origin conn3).
Proof.
  refine (unlimited_pool_always_admits conn3 pool_timeout_1
            (run_ops ops_two world_unlimited) (reachable_world_unlimited ops_two) _).
  vm_compute; reflexivity.
Defined.


(** X7 on an origin with an idle and a pending connection, the pool full. *)
Lemma reuse_needs_no_permit_witness :
  ∃ c, get_or_create example_origin pool_timeout_1 (run_ops ops_idle_pending world0)
         = (Ret c, (_get_connection_from_pool example_origin
                      (run_ops ops_idle_pending world0)).2) ∧
       reuse_candidate (conn (run_ops ops_idle_pending world0) c) ∧
       ∃ tr, trace (get_or_create example_origin pool_timeout_1
                      (run_ops ops_idle_pending world0)).2
               = trace (run_ops ops_idle_pending world0) ++ tr ∧
             Forall (λ e, is_acquire e = false) tr.
Proof.
  refine (reuse_needs_no_permit example_origin pool_timeout_1
            (run_ops ops_idle_pending world0) _).
  exists conn1. split.
  - apply elem_of_elements.
    replace (elements (_connections_for_origin
               (pool (run_ops ops_idle_pending world0)) example_origin))
      with [conn1; conn2] by (vm_compute; reflexivity).
    apply list_elem_of_here.
  - left. split; vm_compute; reflexivity.
Defined.

(** X8 with an idle connection that was dropped. *)
Lemma selection_evicts_dropped_witness :
  (∀ x, present x (_get_connection_from_pool example_origin
                     (run_ops ops_dropped world0)).2 ↔
        present x (run_ops ops_dropped world0) ∧
        ¬ (origin x = example_origin ∧
           dropped_idle (conn (run_ops ops_dropped world0) x))) ∧
  ∃ ds ds' mid,
    ds ≡ₚ ds' ∧
    (∀ x, x ∈ ds ↔
          x ∈ _connections_for_origin (pool (run_ops ops_dropped world0))
                example_origin ∧
          dropped_idle (conn (run_ops ops_dropped world0) x)) ∧
    (mid = [] ∨ ∃ c, mid = [EvMarkAsReady c]) ∧
    trace (_get_connection_from_pool example_origin (run_ops ops_dropped world0)).2 =
      trace (run_ops ops_dropped world0)
        ++ (ds ≫= λ c, [EvRelease; EvRemove c]) ++ mid ++ (EvConnAclose <$> ds').
Proof.
  exact (selection_evicts_dropped example_origin (run_ops ops_dropped world0)
           (reachable_from_world0 ops_dropped)).
Defined.

Example dropped_connection_evicted :
  elements (_get_all_connections
              (pool (_get_connection_from_pool example_origin
                       (run_ops ops_dropped world0)).2)) = [conn2] ∧
  trace (_get_connection_from_pool example_origin (run_ops ops_dropped world0)).2 =
    trace (run_ops ops_dropped world0)
      ++ [EvRelease; EvRemove conn1; EvConnAclose conn1].
Proof. split; vm_compute; reflexivity. Qed.

(** X10 at time 5, with one connection expired. *)
Lemma keepalive_sweep_closes_removed_witness :
  ∃ ds ds',
    ds ≡ₚ ds' ∧
    (∀ x, x ∈ ds ↔ x ∈ _get_all_connections (pool (run_ops ops_idle world0)) ∧
                   expired (clock (run_ops ops_idle world0))
                     (conn (run_ops ops_idle world0) x) = true) ∧
    trace (_keepalive_sweep (run_ops ops_idle world0)).2 =
      trace (run_ops ops_idle world0)
        ++ (ds ≫= λ c, [EvRelease; EvRemove c]) ++ (EvConnAclose <$> ds') ∧
    (∀ x, x ∉ ds → conn (_keepalive_sweep (run_ops ops_idle world0)).2 x
                   = conn (run_ops ops_idle world0) x).
Proof.
  refine (keepalive_sweep_closes_removed (run_ops ops_idle world0)
            (reachable_from_world0 ops_idle) _ _).
  - exists 1%float. vm_compute; reflexivity.
  - vm_compute; reflexivity.
Defined.

(** X11: closed at time 4 with a keep-alive of one second, swept at 5. *)
Lemma kept_connection_expires_witness :
  expires_at (conn (_response_closed conn1 (run_ops ops_one_idle world0)) conn1)
    = Some (clock (run_ops ops_one_idle world0) + 1)%float ∧
  _connections (pool (_response_closed conn1 (run_ops ops_one_idle world0)))
    = _connections (pool (run_ops ops_one_idle world0)) ∧
  (conn1 ∈ connections_get
             (_connections
                (pool (_keepalive_sweep
                         (run (OpEnv (λ st, st) 5%float 2)
                            (_response_closed conn1 (run_ops ops_one_idle world0)))).2))
             (origin conn1) ↔
   PrimFloat.ltb (clock (run_ops ops_one_idle world0) + 1)%float 5%float = false).
Proof.
  refine (kept_connection_expires conn1 (run_ops ops_one_idle world0)
            1%float 5%float 2 _ _ _ _ _).
  - apply elem_of_elements.
    replace (elements (connections_get
               (_connections (pool (run_ops ops_one_idle world0))) (origin conn1)))
      with [conn1] by (vm_compute; reflexivity).
    apply list_elem_of_here.
  - vm_compute; reflexivity.
  - intros (k & Hk & Hlt).
    replace (_max_keepalive (pool (run_ops ops_one_idle world0)))
      with (Some 10%Z) in Hk by (vm_compute; reflexivity).
    injection Hk as <-.
    replace (size (_get_all_connections (pool (run_ops ops_one_idle world0))))
      with 1 in Hlt by (vm_compute; reflexivity).
    discriminate Hlt.
  - vm_compute; reflexivity.
  - vm_compute; reflexivity.
Defined.

(** X12 on the pool holding two connections. *)
Lemma aclose_twice_witness :
  aclose (aclose (run_ops ops_two world0)) = aclose (run_ops ops_two world0).
Proof.
  exact (aclose_twice (run_ops ops_two world0) (reachable_from_world0 ops_two)).
Defined.

(** X13 on the pool holding two connections. *)
Lemma get_all_connections_union_witness :
  (∀ c, c ∈ _get_all_connections (pool (run_ops ops_two world0)) ↔
        ∃ o, c ∈ _connections_for_origin (pool (run_ops ops_two world0)) o) ∧
  (∀ c, c ∈ _get_all_connections (pool (run_ops ops_two world0)) ↔
        c ∈ _connections_for_origin (pool (run_ops ops_two world0)) (origin c)) ∧
  size (_get_all_connections (pool (run_ops ops_two world0)))
    = total_connections (_connections (pool (run_ops ops_two world0))).
Proof.
  exact (get_all_connections_union (run_ops ops_two world0)
           (reachable_from_world0 ops_two)).
Defined.

(** X14 on a new pool with HTTP/2. *)
Lemma pending_connection_is_shared_witness :
  _connections_for_origin (pool (get_or_create example_origin None world0).2)
    example_origin = {[conn1]} ∧
  get_or_create example_origin pool_timeout_1
      (get_or_create example_origin None world0).2
    = (Ret conn1, (get_or_create example_origin None world0).2).
Proof.
  refine (pending_connection_is_shared example_origin None pool_timeout_1 world0
            conn1 _ _ _).
  - reflexivity.
  - unfold _connections_for_origin, connections_get. simpl.
    by rewrite lookup_empty.
  - vm_compute; reflexivity.
Defined.

(** X15 on an origin with an idle and a pending connection. *)
Lemma selected_idle_connection_is_reserved_witness :
  state (conn (_get_connection_from_pool example_origin
                 (run_ops ops_idle_pending world0)).2 conn1) = READY ∧
  (_get_connection_from_pool example_origin
     (_get_connection_from_pool example_origin
        (run_ops ops_idle_pending world0)).2).1 ≠ Some conn1.
Proof.
  refine (selected_idle_connection_is_reserved example_origin
            (run_ops ops_idle_pending world0) conn1 _ _ _);
    vm_compute; reflexivity.
Defined.

(** X16 on the pool holding two connections of one origin. *)
Lemma get_connection_info_entries_witness :
  (∀ u l, get_connection_info (run_ops ops_two world0) !! u = Some l →
          ∃ o s, _connections (pool (run_ops ops_two world0)) !! o = Some s ∧
                 origin_to_url_string o = u ∧
                 l = (λ c, info c (conn (run_ops ops_two world0) c)) <$> set_iter s ∧
                 length l = size s ∧ l ≠ []) ∧
  (∀ u, is_Some (get_connection_info (run_ops ops_two world0) !! u) ↔
        ∃ o, is_Some (_connections (pool (run_ops ops_two world0)) !! o) ∧
             origin_to_url_string o = u).
Proof.
  exact (get_connection_info_entries (run_ops ops_two world0)
           (reachable_from_world0 ops_two)).
Defined.

Example info_of_two :
  map_to_list (get_connection_info (run_ops ops_two world0))
    = [("http://example.org"%string, ["PENDING"%string; "PENDING"%string])].
Proof. vm_compute; reflexivity. Qed.

(** X18: the close of the response leaves the first connection CLOSED. *)
Lemma closed_connection_leaves_pool_on_stream_close_witness :
  (ResponseByteStream_aclose (wrap_stream closing_stream conn1)
     (run_ops ops_two world0)).1 = Ret tt ∧
  ¬ present conn1 (ResponseByteStream_aclose (wrap_stream closing_stream conn1)
                     (run_ops ops_two world0)).2 ∧
  (∀ x, x ≠ conn1 →
        present x (ResponseByteStream_aclose (wrap_stream closing_stream conn1)
                     (run_ops ops_two world0)).2 ↔
        present x (run_ops ops_two world0)) ∧
  semaphore_of (pool (ResponseByteStream_aclose (wrap_stream closing_stream conn1)
                        (run_ops ops_two world0)).2) =
    if decide (present conn1 (run_ops ops_two world0)) then
      match semaphore_of (pool (run_ops ops_two world0)) with
      | NullSemaphore => NullSemaphore
      | Semaphore v => Semaphore (S v)
      end
    else semaphore_of (pool (run_ops ops_two world0)).
Proof.
  refine (closed_connection_leaves_pool_on_stream_close closing_stream conn1
            (run_ops ops_two world0) (Ret tt)
            (<[conn1 := set_state CLOSED (conn (run_ops ops_two world0) conn1)]>
               (conn (run_ops ops_two world0))) _ _ _).
  - reflexivity.
  - discriminate.
  - by rewrite fn_lookup_insert.
Defined.

Example stream_close_frees_a_permit :
  elements (_get_all_connections
              (pool (ResponseByteStream_aclose (wrap_stream closing_stream conn1)
                       (run_ops ops_two world0)).2)) = [conn2] ∧
  semaphore_of (pool (ResponseByteStream_aclose (wrap_stream closing_stream conn1)
                        (run_ops ops_two world0)).2) = Semaphore 1.
Proof. split; vm_compute; reflexivity. Qed.

End MoreExamples.
